(** * Boilerplate context MCP server: repository cache, content reader,
      search handler and HTTP surface (src/boilerplates/mcp, src/unnamed/part_005). *)

From Stdlib Require Import Strings.String List Ascii Arith ZArith Bool Lia.
Import ListNotations.
Open Scope list_scope.
Set Warnings "-register-all".


(** ** Text: JavaScript strings as lists of (ASCII) characters *)
Module Text.

Definition str := list ascii.

(** A literal: [lit "abc"] is the character list of "abc". *)
Definition lit (s : String.string) : str := String.list_ascii_of_string s.
Arguments lit s%_string.

Definition nl_char : ascii := ascii_of_nat 10.
Definition slash_char : ascii := "/"%char.
Definition nl : str := [nl_char].

Definition str_eqb (a b : str) : bool :=
  if list_eq_dec ascii_dec a b then true else false.

(** [String.prototype.toLowerCase] / [toUpperCase] on the ASCII range. *)
Definition lower_char (c : ascii) : ascii :=
  let n := nat_of_ascii c in
  if (65 <=? n) && (n <=? 90) then ascii_of_nat (n + 32) else c.

Definition upper_char (c : ascii) : ascii :=
  let n := nat_of_ascii c in
  if (97 <=? n) && (n <=? 122) then ascii_of_nat (n - 32) else c.

Definition toLowerCase (s : str) : str := map lower_char s.
Definition toUpperCase (s : str) : str := map upper_char s.

(** [s.startsWith(p)] *)
Fixpoint startsWith (s p : str) : bool :=
  match p, s with
  | [], _ => true
  | c :: p', d :: s' => if ascii_dec c d then startsWith s' p' else false
  | _ :: _, [] => false
  end.

(** [s.includes(q)]: [q] occurs at some position of [s]. *)
Fixpoint includes (s q : str) : bool :=
  startsWith s q || match s with [] => false | _ :: s' => includes s' q end.

(** [s.split('\n')] *)
Fixpoint split_nl (s : str) : list str :=
  match s with
  | [] => [[]]
  | c :: s' =>
      let r := split_nl s' in
      if ascii_dec c nl_char then [] :: r
      else match r with
           | [] => [[c]]
           | l :: ls => (c :: l) :: ls
           end
  end.

(** [xs.join(sep)] *)
Fixpoint join (sep : str) (xs : list str) : str :=
  match xs with
  | [] => []
  | [x] => x
  | x :: xs' => x ++ sep ++ join sep xs'
  end.

(** [xs.slice(start, end)] for [0 <= start <= end <= xs.length]. *)
Definition slice {A} (xs : list A) (start end_ : nat) : list A :=
  firstn (end_ - start) (skipn start xs).

(** Decimal rendering of a natural number (template literal [${n}]). *)
Fixpoint nat_to_str_aux (fuel n : nat) (acc : str) : str :=
  match fuel with
  | 0 => acc
  | S f =>
      let acc' := ascii_of_nat (48 + n mod 10) :: acc in
      if n <? 10 then acc' else nat_to_str_aux f (n / 10) acc'
  end.

Definition nat_to_str (n : nat) : str := nat_to_str_aux (S n) n [].

End Text.

Import Text.

(** ** The search in the [search_best_practices] handler
    (src/boilerplates/mcp/eslint.config.ts, lines 196-208) *)
Module Search.

(** [Math.max(0, index - 2)] .. [Math.min(lines.length, index + 3)],
    then [lines.slice(start, end).join('\n')]. *)
Definition context (lines : list str) (index : nat) : str :=
  let start := index - 2 in
  let end_ := Nat.min (length lines) (index + 3) in
  join nl (slice lines start end_).

(** [lines.forEach((line, index) => ...)], from position [index] on. *)
Fixpoint forEach_match (lines : list str) (queryLower : str)
    (index : nat) (rest : list str) : list (nat * str) :=
  match rest with
  | [] => []
  | line :: rest' =>
      let tl := forEach_match lines queryLower (S index) rest' in
      if includes (toLowerCase line) queryLower
      then (S index, context lines index) :: tl
      else tl
  end.

(** The matches found for [query] in [content]: the line number
    ([index + 1]) and the context block of each one, in push order. *)
Definition search (content query : str) : list (nat * str) :=
  let lines := split_nl content in
  forEach_match lines (toLowerCase query) 0 lines.

(** [`\n--- Line ${index + 1} ---\n${context}\n`] *)
Definition format_match (m : nat * str) : str :=
  nl ++ lit "--- Line " ++ nat_to_str (fst m) ++ lit " ---" ++ nl ++ snd m ++ nl.

(** The document of the spec's search example: "alpha\nbeta\nGAMMA\ndelta\n". *)
Definition example_doc : str :=
  lit "alpha" ++ nl ++ lit "beta" ++ nl ++ lit "GAMMA" ++ nl ++ lit "delta" ++ nl.

End Search.

(** The context window as the spec describes it: the indices [j] of the
    document ([0 <= j < n]) that lie at most 2 lines before or after the
    matching line [i]. *)
Definition spec_window (n i : nat) : list nat :=
  filter (fun j => (i - 2 <=? j) && (j <=? i + 2)) (seq 0 n).

(** ** [getDirectoryStructure] (src/unnamed/part_005, lines 36-61) *)
Module DirTree.

(** A directory listing as [fs.readdir(dir, {withFileTypes: true})]
    returns it: entries in storage order, each a directory (with the
    entries [readdir] returns for it) or something else. *)
Inductive entry : Type :=
| File (name : str)
| Dir (name : str) (children : list entry).

Definition entry_name (e : entry) : str :=
  match e with File n => n | Dir n _ => n end.

(** [entry.name.startsWith('.') || entry.name === 'node_modules'] *)
Definition skipped (name : str) : bool :=
  startsWith name (lit ".") || str_eqb name (lit "node_modules").

(** [path.join(prefix, name)] for a name returned by [readdir] (no
    separator, not "." or ".."): the name itself under the empty prefix. *)
Definition path_join (prefix name : str) : str :=
  match prefix with
  | [] => name
  | _ => prefix ++ [slash_char] ++ name
  end.

(** What [path.join(prefix, name)] puts before the name. *)
Definition join_prefix (prefix : str) : str :=
  match prefix with
  | [] => []
  | _ => prefix ++ [slash_char]
  end.

(** The paths [traverse(dir, prefix)] pushes onto [files] for one entry of
    the loop [for (const entry of entries)], in push order. *)
Fixpoint visit (prefix : str) (e : entry) {struct e} : list str :=
  match e with
  | File n => if skipped n then [] else [path_join prefix n]
  | Dir n cs =>
      if skipped n then []
      else (path_join prefix n ++ [slash_char])
           :: flat_map (visit (path_join prefix n)) cs
  end.

(** [traverse(dir, prefix)]: the loop over the entries of [dir]. *)
Definition traverse (prefix : str) (es : list entry) : list str :=
  flat_map (visit prefix) es.

(** [await traverse(dirPath); return files;] with the default prefix "". *)
Definition structure_of (es : list entry) : list str := traverse [] es.

(** Well-formed listings, as a file system produces them: every name is
    non-empty and has no separator, and the names of one directory are
    distinct. *)
Definition name_ok (n : str) : bool :=
  negb (match n with [] => true | _ => false end)
  && negb (existsb (fun c => if ascii_dec c slash_char then true else false) n).

Fixpoint distinct_names (ns : list str) : bool :=
  match ns with
  | [] => true
  | n :: ns' => negb (existsb (str_eqb n) ns') && distinct_names ns'
  end.

Fixpoint wf_entry (e : entry) {struct e} : bool :=
  name_ok (entry_name e)
  && match e with
     | File _ => true
     | Dir _ cs => distinct_names (map entry_name cs) && forallb wf_entry cs
     end.

Definition wf_entries (es : list entry) : bool :=
  distinct_names (map entry_name es) && forallb wf_entry es.

Fixpoint first_some {A} (xs : list (option A)) : option A :=
  match xs with
  | [] => None
  | Some x :: _ => Some x
  | None :: xs' => first_some xs'
  end.

(** The node at a component path: [Some true] for a directory,
    [Some false] for a file. *)
Fixpoint node_at_entry (e : entry) (cs : list str) {struct e} : option bool :=
  match cs with
  | [] => None
  | c :: cs' =>
      if str_eqb (entry_name e) c then
        match e, cs' with
        | File _, [] => Some false
        | Dir _ _, [] => Some true
        | File _, _ :: _ => None
        | Dir _ ch, _ :: _ => first_some (map (fun e' => node_at_entry e' cs') ch)
        end
      else None
  end.

Definition node_at (es : list entry) (cs : list str) : option bool :=
  first_some (map (fun e => node_at_entry e cs) es).

(** A path of components rendered as [traverse] renders it. *)
Definition render (cs : list str) (is_dir : bool) : str :=
  join [slash_char] cs ++ (if is_dir then [slash_char] else []).

Definition ends_with_slash (s : str) : bool :=
  match rev s with c :: _ => if ascii_dec c slash_char then true else false | [] => false end.

(** [o] lies strictly below the directory entry [r ++ "/"]. *)
Definition under (r o : str) : bool :=
  startsWith o (r ++ [slash_char]) && negb (str_eqb o (r ++ [slash_char])).

(** Induction on entry lists that also descends into the children of
    directories. *)
Section EntriesInd.
Variable P : list entry -> Prop.
Hypothesis P_nil : P [].
Hypothesis P_file : forall n rest, P rest -> P (File n :: rest).
Hypothesis P_dir : forall n cs rest, P cs -> P rest -> P (Dir n cs :: rest).

Fixpoint entry_cons_ind (e : entry) {struct e} : forall rest, P rest -> P (e :: rest) :=
    match e with
    | File n => fun rest H => P_file n rest H
    | Dir n cs => fun rest H =>
        P_dir n cs rest
          ((fix go (l : list entry) : P l :=
              match l with
              | [] => P_nil
              | e' :: l' => entry_cons_ind e' l' (go l')
              end) cs) H
    end.

Fixpoint entries_ind (l : list entry) : P l :=
    match l with
    | [] => P_nil
    | e :: l' => entry_cons_ind e l' (entries_ind l')
    end.
End EntriesInd.

End DirTree.

(** ** The repository cache, the content reader and the MCP handlers
    (src/unnamed/part_005 [repoTools], src/boilerplates/mcp/eslint.config.ts
    [getMcpServer], src/boilerplates/mcp/src/config.ts) *)
Module Server.
Import Search DirTree.

(** [enum PLATFORMS] and [config.platforms = Object.values(PLATFORMS)]. *)
Inductive platform : Type := BACKEND | FRONTEND | MOBILE.

Definition platform_str (p : platform) : str :=
  match p with
  | BACKEND => lit "backend"
  | FRONTEND => lit "frontend"
  | MOBILE => lit "mobile"
  end.

Definition config_platforms : list platform := [BACKEND; FRONTEND; MOBILE].

(** Rejections: an I/O error of [fs] and a [simple-git] failure (each
    carrying its [String(error)] text), a JavaScript [Error] with its
    message, and [process.exit(code)]. *)
Inductive error : Type :=
| IoError (text : str)
| GitError (text : str)
| JsError (message : str)
| ProcessExit (code : nat).

(** [`${error}`] *)
Definition error_to_string (e : error) : str :=
  match e with
  | IoError t | GitError t => t
  | JsError m => lit "Error: " ++ m
  | ProcessExit _ => []
  end.

Inductive result (A : Type) : Type :=
| Ok (a : A)
| Err (e : error).
Arguments Ok {A} a.
Arguments Err {A} e.

(** The working copy as the reads see it: the [AGENTS.md] file of each
    platform ([fs.readFile(dir/boilerplateDir/platform/AGENTS.md)]) and the
    listing of each platform directory ([fs.readdir(dirPath)], with the
    listings of its subdirectories nested in it). *)
Record wcopy : Type := mkWcopy {
  doc_at : platform -> result str;
  tree_at : platform -> result (list entry)
}.

(** The process's view of the outside: whether [fs.access(dir)] succeeds,
    the working copy, and what [git clone] and [git pull] would produce now
    (a new working copy, or a failure that leaves the directory as it is). *)
Record world : Type := mkWorld {
  dir_exists : bool;
  wc : wcopy;
  clone_outcome : result wcopy;
  pull_outcome : result wcopy
}.

Inductive level : Type := Info | Warn | Error_.

(** Observable effects, in the order they happen.  [EnsureRepo] marks a
    call of [ensureRepo]. *)
Inductive event : Type :=
| EnsureRepo
| Access
| GitClone
| GitPull
| ReadFile (p : platform)
| ReadDir (p : platform)
| Log (lv : level) (msg : str).

(** A small state, trace and error monad for the async functions. *)
Record outcome (A : Type) : Type := Out {
  events : list event;
  final : world;
  value : result A
}.
Arguments Out {A} events final value.
Arguments events {A} o.
Arguments final {A} o.
Arguments value {A} o.

Definition M (A : Type) : Type := world -> outcome A.

Definition ret {A} (a : A) : M A := fun w => Out [] w (Ok a).
Definition throw {A} (e : error) : M A := fun w => Out [] w (Err e).
Definition emit (ev : event) : M unit := fun w => Out [ev] w (Ok tt).
Definition get : M world := fun w => Out [] w (Ok w).
Definition put (w' : world) : M unit := fun _ => Out [] w' (Ok tt).

Definition bind {A B} (m : M A) (k : A -> M B) : M B := fun w =>
  let o := m w in
  match value o with
  | Ok a => let o' := k a (final o) in Out (events o ++ events o') (final o') (value o')
  | Err e => Out (events o) (final o) (Err e)
  end.

(** [try { m } catch (e) { h(e) }] *)
Definition catch {A} (m : M A) (h : error -> M A) : M A := fun w =>
  let o := m w in
  match value o with
  | Ok a => o
  | Err e => let o' := h e (final o) in Out (events o ++ events o') (final o') (value o')
  end.

Notation "x <- m ;; k" := (bind m (fun x => k))
  (at level 61, m at next level, right associativity).
Notation "m ;;; k" := (bind m (fun _ => k)) (at level 61, right associativity).

(** [Promise.all(ps)]: every promise is started, in order; the results are
    collected in order.  A rejection rejects the whole; which one is
    reported depends on timing, the model takes the first in order. *)
Fixpoint promise_all {A} (ms : list (M A)) : M (list A) := fun w =>
  match ms with
  | [] => Out [] w (Ok [])
  | m :: ms' =>
      let o := m w in
      let o' := promise_all ms' (final o) in
      Out (events o ++ events o') (final o')
          (match value o, value o' with
           | Ok a, Ok l => Ok (a :: l)
           | Err e, _ => Err e
           | Ok _, Err e => Err e
           end)
  end.

(** [fs.access(dir).then(() => true).catch(error => { console.warn(...); return false; })] *)
Definition fs_access : M bool :=
  emit Access ;;;
  w <- get ;;
  if dir_exists w then ret true
  else emit (Log Warn (lit "Something went wrong accessing the repository directory")) ;;;
       ret false.

(** [git.clone(url, dir)] *)
Definition git_clone : M unit :=
  emit GitClone ;;;
  w <- get ;;
  match clone_outcome w with
  | Ok c => put (mkWorld true c (clone_outcome w) (pull_outcome w))
  | Err e => throw e
  end.

(** [simpleGit(dir).pull()] *)
Definition git_pull : M unit :=
  emit GitPull ;;;
  w <- get ;;
  match pull_outcome w with
  | Ok c => put (mkWorld (dir_exists w) c (clone_outcome w) (pull_outcome w))
  | Err e => throw e
  end.

(** [ensureRepo()] (part_005, lines 14-34). *)
Definition ensureRepo : M unit :=
  emit EnsureRepo ;;;
  catch
    (exists_ <- fs_access ;;
     if negb exists_
     then emit (Log Info (lit "Cloning repository...")) ;;; git_clone
     else emit (Log Info (lit "Pulling repository...")) ;;; git_pull)
    (fun e => emit (Log Error_ (lit "Error managing repository: " ++ error_to_string e)) ;;;
              throw e).

(** [fs.readFile(filePath, "utf-8")] *)
Definition fs_readFile (p : platform) : M str :=
  emit (ReadFile p) ;;;
  w <- get ;;
  match doc_at (wc w) p with
  | Ok s => ret s
  | Err e => throw e
  end.

(** [readAgentsMd(platform)] (part_005, lines 63-71). *)
Definition readAgentsMd (p : platform) : M str :=
  catch (fs_readFile p)
    (fun e => throw (JsError (lit "Failed to read AGENTS.md for " ++ platform_str p
                              ++ lit ": " ++ error_to_string e))).

(** [fs.readdir(dirPath, {withFileTypes: true})] of the platform directory,
    with the nested listings the walk reads. *)
Definition fs_readdir (p : platform) : M (list entry) :=
  emit (ReadDir p) ;;;
  w <- get ;;
  match tree_at (wc w) p with
  | Ok es => ret es
  | Err e => throw e
  end.

(** [getDirectoryStructure(platform)] (part_005, lines 36-61). *)
Definition getDirectoryStructure (p : platform) : M (list str) :=
  es <- fs_readdir p ;;
  ret (structure_of es).

(** The [repoTools] start-up: [try { await ensureRepo() } catch { ...; process.exit(1) }]. *)
Definition repoTools_init : M unit :=
  catch ensureRepo
    (fun e => emit (Log Error_ (lit "Failed to initialize repository: " ++ error_to_string e)) ;;;
              throw (ProcessExit 1)).

Definition quote : str := [ascii_of_nat 34].

(** Resource [boilerplate://${platform}/agents.md] (eslint.config.ts,
    lines 154-167): the document text. *)
Definition resource_read (p : platform) : M str :=
  ensureRepo ;;;
  content <- readAgentsMd p ;;
  ret content.

(** Tool [get_boilerplate_structure] (lines 176-186). *)
Definition get_boilerplate_structure (p : platform) : M str :=
  structure <- getDirectoryStructure p ;;
  ret (lit "File structure for " ++ platform_str p ++ lit " boilerplate:" ++ nl ++ nl
       ++ join nl structure).

(** Tool [search_best_practices] (lines 195-220). *)
Definition search_best_practices (p : platform) (query : str) : M str :=
  content <- readAgentsMd p ;;
  let matches := map format_match (search content query) in
  ret (match matches with
       | _ :: _ =>
           lit "Found " ++ nat_to_str (length matches) ++ lit " matches for " ++ quote
           ++ query ++ quote ++ lit " in " ++ platform_str p ++ lit " AGENTS.md:" ++ nl
           ++ join nl matches
       | [] =>
           lit "No matches found for " ++ quote ++ query ++ quote ++ lit " in "
           ++ platform_str p ++ lit " AGENTS.md"
       end).

(** [`## ${platform.toUpperCase()} AGENTS.md\n\n${content}`] *)
Definition context_section (p : platform) (content : str) : str :=
  lit "## " ++ toUpperCase (platform_str p) ++ lit " AGENTS.md" ++ nl ++ nl ++ content.

(** [contexts.join('\n\n---\n\n')] *)
Definition rule_sep : str := nl ++ nl ++ lit "---" ++ nl ++ nl.

(** Tool [get_all_contexts] (lines 229-245). *)
Definition get_all_contexts : M str :=
  contexts <- promise_all (map (fun p => content <- readAgentsMd p ;;
                                         ret (context_section p content))
                               config_platforms) ;;
  ret (join rule_sep contexts).

(** Every read of the working copy in a trace comes after a call of
    [ensureRepo] in that trace. *)
Fixpoint ensured_before_reads_from (seen : bool) (evs : list event) : bool :=
  match evs with
  | [] => true
  | EnsureRepo :: evs' => ensured_before_reads_from true evs'
  | (ReadFile _ | ReadDir _) :: evs' => seen && ensured_before_reads_from seen evs'
  | _ :: evs' => ensured_before_reads_from seen evs'
  end.

Definition ensured_before_reads (evs : list event) : bool :=
  ensured_before_reads_from false evs.

(** ** Sample working copies *)

(** A boilerplate listing with a hidden file, a dependency directory and a
    nested source directory. *)
Definition sample_tree : list entry :=
  [File (lit ".env"); File (lit "package.json");
   Dir (lit "node_modules") [File (lit "index.js")];
   Dir (lit "src") [File (lit "main.ts"); Dir (lit "routes") [File (lit "health.ts")]]].

(** A working copy with a document for two platforms and none for the third. *)
Definition sample_wcopy : wcopy :=
  mkWcopy (fun p => match p with
                    | BACKEND => Ok (lit "Use the auth middleware.")
                    | FRONTEND => Ok (lit "Use hooks.")
                    | MOBILE => Err (IoError (lit "ENOENT: no such file or directory"))
                    end)
          (fun _ => Ok sample_tree).

(** The working copy exists and the remote cannot be reached. *)
Definition offline_world : world :=
  mkWorld true sample_wcopy (Err (GitError (lit "fatal: unable to access remote")))
          (Err (GitError (lit "fatal: unable to access remote"))).

(** A working copy with a document for every platform. *)
Definition full_wcopy : wcopy :=
  mkWcopy (fun p => match p with
                    | BACKEND => Ok (lit "Use the auth middleware.")
                    | FRONTEND => Ok (lit "Use hooks.")
                    | MOBILE => Ok (lit "Use the design system.")
                    end)
          (fun _ => Ok sample_tree).

Definition online_world : world :=
  mkWorld true full_wcopy (Ok full_wcopy) (Ok full_wcopy).

End Server.

(** ** The HTTP surface of [createApp] (src/unnamed/part_005, lines 112-174) *)
Module Http.










(** *** The middleware of [createMcpExpressApp()] and Express's own
    handling around the routes

    [createApp] builds its app with [createMcpExpressApp()] (no options),
    which installs, before the routes, [express.json()] and then, the
    default host being 127.0.0.1, the localhost Host-header validation. *)














End Http.

(** ** The [simple-git] schedulers seen by concurrent [ensureRepo] calls
    (src/unnamed/part_005, lines 7-34) *)
Module GitScheduler.

(** A [simpleGit] instance runs at most [limit] git processes at once. *)
Record instance : Type := mkInstance { limit : nat; running : nat }.

(** Where one [ensureRepo] call is: before its access check, queued on an
    instance for a clone or a pull, running it, or finished. *)
Inductive pc : Type :=
| Start
| WaitClone
| WaitPull (i : nat)
| RunClone
| RunPull (i : nat)
| Done.

Record state : Type := mkState {
  instances : list instance;
  threads : list pc;
  repo_present : bool
}.

Fixpoint set_nth {A} (l : list A) (i : nat) (x : A) : list A :=
  match l, i with
  | [], _ => []
  | _ :: l', 0 => x :: l'
  | y :: l', S i' => y :: set_nth l' i' x
  end.

Definition free_slot (s : state) (i : nat) : bool :=
  match nth_error (instances s) i with
  | Some ins => running ins <? limit ins
  | None => false
  end.

Definition acquire (s : state) (i : nat) : list instance :=
  match nth_error (instances s) i with
  | Some ins => set_nth (instances s) i (mkInstance (limit ins) (S (running ins)))
  | None => instances s
  end.

Definition release (s : state) (i : nat) : list instance :=
  match nth_error (instances s) i with
  | Some ins => set_nth (instances s) i (mkInstance (limit ins) (running ins - 1))
  | None => instances s
  end.

(** Instance 0 is [git = simpleGit({..., maxConcurrentProcesses: 1})];
    every [simpleGit(dir)] creates a new instance with the library's
    default limit [dflt]. *)
Inductive step (dflt : nat) : state -> state -> Prop :=
| step_start_clone s t :
    nth_error (threads s) t = Some Start -> repo_present s = false ->
    step dflt s (mkState (instances s) (set_nth (threads s) t WaitClone) (repo_present s))
| step_start_pull s t :
    nth_error (threads s) t = Some Start -> repo_present s = true ->
    step dflt s (mkState (instances s ++ [mkInstance dflt 0])
                         (set_nth (threads s) t (WaitPull (length (instances s))))
                         (repo_present s))
| step_run_clone s t :
    nth_error (threads s) t = Some WaitClone -> free_slot s 0 = true ->
    step dflt s (mkState (acquire s 0) (set_nth (threads s) t RunClone) (repo_present s))
| step_run_pull s t i :
    nth_error (threads s) t = Some (WaitPull i) -> free_slot s i = true ->
    step dflt s (mkState (acquire s i) (set_nth (threads s) t (RunPull i)) (repo_present s))
| step_end_clone s t :
    nth_error (threads s) t = Some RunClone ->
    step dflt s (mkState (release s 0) (set_nth (threads s) t Done) true)
| step_end_pull s t i :
    nth_error (threads s) t = Some (RunPull i) ->
    step dflt s (mkState (release s i) (set_nth (threads s) t Done) (repo_present s)).

Inductive reachable (dflt : nat) (s0 : state) : state -> Prop :=
| reach_refl : reachable dflt s0 s0
| reach_step s s' : reachable dflt s0 s -> step dflt s s' -> reachable dflt s0 s'.

(** [n] concurrent [ensureRepo] calls against the same directory. *)
Definition init (n : nat) (present : bool) : state :=
  mkState [mkInstance 1 0] (repeat Start n) present.

Definition is_running (c : pc) : bool :=
  match c with RunClone | RunPull _ => true | _ => false end.

(** The number of git network operations running at once. *)
Definition running_git_ops (s : state) : nat := length (filter is_running (threads s)).

(** The number of clones running at once. *)
Definition running_clones (s : state) : nat :=
  length (filter (fun c => match c with RunClone => true | _ => false end) (threads s)).

(** Whether a call is running its clone. *)
Definition is_clone (c : pc) : bool := match c with RunClone => true | _ => false end.

(** The invariant of the clone lock: instance 0 counts the running
    clones, there is at most one, and every pull is queued on an instance
    other than 0. *)
Definition clones_inv (s : state) : Prop :=
  nth_error (instances s) 0 = Some (mkInstance 1 (running_clones s))
  /\ running_clones s <= 1
  /\ (forall t i, nth_error (threads s) t = Some (WaitPull i)
                  \/ nth_error (threads s) t = Some (RunPull i) -> 1 <= i).

End GitScheduler.

(** ** Configuration and start-up (src/boilerplates/mcp/src/config.ts,
    src/boilerplates/mcp/src/index.ts) *)
Module Startup.
Import Server.

(** The white space [parseInt] skips (StrWhiteSpaceChar), on the ASCII
    range: TAB, LF, VT, FF, CR and SPACE. *)
Definition is_ws (c : ascii) : bool :=
  let n := nat_of_ascii c in
  ((9 <=? n) && (n <=? 13)) || (n =? 32).

Fixpoint trim_start (s : str) : str :=
  match s with
  | c :: s' => if is_ws c then trim_start s' else s
  | [] => []
  end.

(** The value of a digit of radix up to 36: 0-9, then a-z / A-Z. *)
Definition digit_value (c : ascii) : option Z :=
  let n := nat_of_ascii c in
  if (48 <=? n) && (n <=? 57) then Some (Z.of_nat (n - 48))
  else if (97 <=? n) && (n <=? 122) then Some (Z.of_nat (n - 87))
  else if (65 <=? n) && (n <=? 90) then Some (Z.of_nat (n - 55))
  else None.

(** The longest prefix of radix-[r] digits, as digit values. *)
Fixpoint take_digits (r : Z) (s : str) : list Z :=
  match s with
  | c :: s' =>
      match digit_value c with
      | Some d => if (d <? r)%Z then d :: take_digits r s' else []
      | None => []
      end
  | [] => []
  end.

Definition digits_value (r : Z) (ds : list Z) : Z :=
  fold_left (fun acc d => (acc * r + d)%Z) ds 0%Z.

(** [parseInt(string)] with no radix (ECMAScript 19.2.5): leading white
    space skipped, an optional sign, a "0x"/"0X" prefix selecting radix 16,
    then the longest run of digits; [None] is [NaN].  The value is the
    exact integer (the numbers met here are far below 2^53); [-0] is
    [0]. *)
Definition parseInt (s : str) : option Z :=
  let s1 := trim_start s in
  let '(sign, s2) :=
    match s1 with
    | c :: t => if ascii_dec c "-"%char then ((-1)%Z, t)
                else if ascii_dec c "+"%char then (1%Z, t) else (1%Z, s1)
    | [] => (1%Z, s1)
    end in
  let '(r, s3) :=
    match s2 with
    | c :: x :: t =>
        if (if ascii_dec c "0"%char then true else false)
           && (if ascii_dec x "x"%char then true else if ascii_dec x "X"%char then true else false)
        then (16%Z, t) else (10%Z, s2)
    | _ => (10%Z, s2)
    end in
  match take_digits r s3 with
  | [] => None
  | ds => Some (sign * digits_value r ds)%Z
  end.

(** [process.env]: the variables [config] reads ([None] when unset). *)
Record env : Type := mkEnv {
  PORT : option str;
  REPO_URL : option str;
  REPO_DIR : option str;
  BOILERPLATE_DIR : option str
}.

(** A string is truthy when it is not empty. *)
Definition truthy (s : str) : bool := match s with [] => false | _ => true end.

(** [x ?? ''] *)
Definition or_empty (o : option str) : str := match o with Some s => s | None => [] end.

(** [config] (config.ts): [port] is [None] when it is [NaN]. *)
Record config : Type := mkConfig {
  port : option Z;
  repoUrl : str;
  repoDir : str;
  boilerplateDir : str
}.

(** [process.env.PORT ? parseInt(process.env.PORT) : 3000] *)
Definition config_port (v : env) : option Z :=
  match PORT v with
  | Some s => if truthy s then parseInt s else Some 3000%Z
  | None => Some 3000%Z
  end.

Definition config_of (v : env) : config :=
  mkConfig (config_port v) (or_empty (REPO_URL v)) (or_empty (REPO_DIR v))
           (or_empty (BOILERPLATE_DIR v)).

(** [startServer().catch(error => { console.error(...); process.exit(1); })]:
    [process.exit] ends the process at once, so a [ProcessExit] is never
    caught. *)
Definition start_catch {A} (m : M A) : M A :=
  catch m (fun e => match e with
                    | ProcessExit c => throw (ProcessExit c)
                    | _ => emit (Log Error_ (lit "Error starting server: " ++ error_to_string e)) ;;;
                           throw (ProcessExit 1)
                    end).

(** [startServer] (index.ts): the configuration check, [getMcpServer()]
    (whose only effect is [repoTools], i.e. [repoTools_init]; the
    registrations are pure), [createApp] (pure), then [app.listen(port)];
    the value is the port [app.listen] is called with. *)
Definition startServer (v : env) : M (option Z) :=
  let cfg := config_of v in
  start_catch
    ((if negb (truthy (repoUrl cfg)) || negb (truthy (repoDir cfg))
      then emit (Log Error_ (lit "Repository URL and directory must be specified in the configuration.")) ;;;
           throw (ProcessExit 1)
      else ret tt) ;;;
     repoTools_init ;;;
     ret (port cfg)).

(** The digit character of a digit value below 10. *)
Definition dchar (d : nat) : ascii := ascii_of_nat (48 + d).

End Startup.

(** ** The platform argument schema of the tools (part_005, lines 90-97) *)
Module Registry.
Import Server.

(** [z.enum(config.platforms)]: the validated [platform] argument. *)
Definition parse_platform (s : str) : option platform :=
  find (fun p => str_eqb (platform_str p) s) config_platforms.

End Registry.

(** * Proofs *)

Module SearchFacts.
Import Search.

Lemma skipn_cons_nth {A} (l : list A) (i : nat) (x : A) (r : list A) (d : A) :
  skipn i l = x :: r -> nth i l d = x /\ skipn (S i) l = r.
Proof.
  revert l; induction i as [|i IH]; intros [|y l] H; simpl in *; try discriminate.
  - injection H as -> ->. auto.
  - apply IH. exact H.
Qed.

Lemma skipn_length_tail {A} (l : list A) (i : nat) (r : list A) :
  skipn i l = r -> i + length r <= length l \/ r = [].
Proof.
  intros <-. rewrite length_skipn. destruct (Nat.le_gt_cases i (length l)); [left; lia|].
  right. apply skipn_all2. lia.
Qed.

Lemma forEach_match_fst (lines : list str) (ql : str) :
  forall rest i, skipn i lines = rest ->
  map fst (forEach_match lines ql i rest)
  = filter (fun k => includes (toLowerCase (nth (k - 1) lines [])) ql)
           (seq (S i) (length rest)).
Proof.
  induction rest as [|line rest IH]; intros i Hs; [reflexivity|].
  destruct (skipn_cons_nth lines i line rest [] Hs) as [Hn Hs'].
  simpl. replace (i - 0) with i by lia. rewrite Hn.
  destruct (includes (toLowerCase line) ql); simpl; rewrite (IH (S i) Hs'); reflexivity.
Qed.

Lemma forEach_match_ctx (lines : list str) (ql : str) :
  forall rest i, skipn i lines = rest ->
  Forall (fun m => 1 <= fst m <= length lines /\ snd m = context lines (fst m - 1))
         (forEach_match lines ql i rest).
Proof.
  induction rest as [|line rest IH]; intros i Hs; simpl; [constructor|].
  assert (Hs' := Hs). apply skipn_cons_nth with (d := []) in Hs' as [_ Hs'].
  assert (Hlen : i < length lines).
  { destruct (Nat.lt_ge_cases i (length lines)) as [|Hge]; [assumption|].
    rewrite skipn_all2 in Hs by lia. discriminate. }
  destruct (includes (toLowerCase line) ql); [constructor|]; auto.
  simpl. replace (i - 0) with i by lia. split; [lia|reflexivity].
Qed.

Lemma filter_range_seq (a b : nat) :
  forall n, filter (fun j => (a <=? j) && (j <? b)) (seq 0 n) = seq a (Nat.min n b - a).
Proof.
  induction n as [|n IH].
  - simpl. replace (0 - a) with 0 by lia. reflexivity.
  - rewrite seq_S, filter_app, IH. cbn [filter plus].
    destruct (Nat.leb_spec a n), (Nat.ltb_spec n b); cbn [andb].
    + replace (Nat.min (S n) b - a) with (S (Nat.min n b - a)) by lia.
      rewrite seq_S. do 2 f_equal. lia.
    + rewrite app_nil_r. f_equal. lia.
    + rewrite app_nil_r. f_equal. lia.
    + rewrite app_nil_r. f_equal. lia.
Qed.

Lemma map_nth_seq_slice {A} (l : list A) (d : A) :
  forall len s, s + len <= length l ->
  map (fun j => nth j l d) (seq s len) = firstn len (skipn s l).
Proof.
  induction len as [|len IH]; intros s H; [reflexivity|].
  simpl. rewrite (IH (S s)) by lia.
  destruct (skipn s l) as [|x r] eqn:E.
  - exfalso. assert (length (skipn s l) = length l - s) by apply length_skipn.
    rewrite E in H0. simpl in H0. lia.
  - destruct (skipn_cons_nth l s x r d E) as [-> ->]. reflexivity.
Qed.

Lemma spec_window_context (lines : list str) (i : nat) :
  i < length lines ->
  join nl (map (fun j => nth j lines []) (spec_window (length lines) i))
  = context lines i.
Proof.
  intros Hi. unfold spec_window, context, slice.
  assert (Hf : filter (fun j => (i - 2 <=? j) && (j <=? i + 2)) (seq 0 (length lines))
             = filter (fun j => (i - 2 <=? j) && (j <? i + 3)) (seq 0 (length lines))).
  { apply filter_ext. intros j. f_equal.
    destruct (Nat.leb_spec j (i + 2)), (Nat.ltb_spec j (i + 3)); auto; lia. }
  rewrite Hf, filter_range_seq, map_nth_seq_slice by lia. reflexivity.
Qed.

Lemma includes_empty (s : str) : includes s [] = true.
Proof. destruct s; reflexivity. Qed.

Lemma split_nl_not_nil (s : str) : split_nl s <> [].
Proof.
  induction s as [|c s IH]; simpl; [discriminate|].
  destruct (ascii_dec c nl_char); [discriminate|].
  destruct (split_nl s); [contradiction|discriminate].
Qed.

Lemma split_nl_app_nl (s : str) : split_nl (s ++ nl) = split_nl s ++ [[]].
Proof.
  induction s as [|c s IH]; [reflexivity|].
  simpl. rewrite IH. destruct (ascii_dec c nl_char); [reflexivity|].
  destruct (split_nl s) as [|l ls] eqn:E; [now destruct (split_nl_not_nil s)|].
  reflexivity.
Qed.

Lemma search_fst (content query : str) :
  map fst (search content query)
  = filter (fun k => includes (toLowerCase (nth (k - 1) (split_nl content) []))
                              (toLowerCase query))
           (seq 1 (length (split_nl content))).
Proof. unfold search. apply forEach_match_fst. reflexivity. Qed.

Lemma search_ctx (content query : str) :
  Forall (fun m => 1 <= fst m <= length (split_nl content)
                   /\ snd m = context (split_nl content) (fst m - 1))
         (search content query).
Proof. unfold search. apply forEach_match_ctx. reflexivity. Qed.

End SearchFacts.
Module SearchClaims.
Import Search SearchFacts.

(** C3: [search] returns one result per line whose lowercased form
    contains the lowercased query, in ascending order of the 1-based line
    number; the context of a match at line [k] is the join of the
    document lines at most 2 before and 2 after it, clipped to the
    document; the empty query matches every line. *)
Theorem search_results_spec (content query : str) :
  let lines := split_nl content in
  map fst (search content query)
    = filter (fun k => includes (toLowerCase (nth (k - 1) lines []))
                                (toLowerCase query))
             (seq 1 (length lines))
  /\ Forall (fun m => snd m = join nl (map (fun j => nth j lines [])
                                          (spec_window (length lines) (fst m - 1))))
            (search content query)
  /\ (query = [] -> map fst (search content query) = seq 1 (length lines)).
Proof.
  cbv zeta. split; [|split].
  - apply search_fst.
  - eapply Forall_impl; [|apply search_ctx].
    intros [k ctx] [Hk ->]. simpl in *. symmetry. apply spec_window_context. lia.
  - intros ->. rewrite search_fst. rewrite <- (filter_true (seq 1 _)) at 2.
    apply filter_ext. intros k. apply includes_empty.
Qed.


(** C4 (counterexample): for "alpha\nbeta\nGAMMA\ndelta\n" and "gamma" the
    search does not return the single match at line 3 with the context of
    lines 1 to 4 only. *)
Lemma search_example_not_lines_1_to_4 :
  search example_doc (lit "gamma")
  <> [(3, join nl [lit "alpha"; lit "beta"; lit "GAMMA"; lit "delta"])].
Proof. vm_compute. congruence. Qed.

(** C4 (amended): the search returns exactly one match, at line 3; its
    context is lines 1 to 5, the fifth line being the empty text after the
    final newline, so the context is the whole document text. *)
Theorem search_example_context_lines_1_to_5 :
  split_nl example_doc
    = [lit "alpha"; lit "beta"; lit "GAMMA"; lit "delta"; []]
  /\ search example_doc (lit "gamma")
     = [(3, join nl [lit "alpha"; lit "beta"; lit "GAMMA"; lit "delta"; []])]
  /\ search example_doc (lit "gamma") = [(3, example_doc)].
Proof. vm_compute. auto. Qed.

(** C10: when the text ends with a newline, the text after that newline is
    one more, empty, line: it has its own line number (the last one), the
    empty query matches it, and every context block whose window reaches
    the end of the line sequence ends with it. *)
Theorem search_trailing_empty_line (s q : str) :
  let t := s ++ nl in
  let lines := split_nl t in
  lines = split_nl s ++ [[]]
  /\ nth (length lines - 1) lines [] = []
  /\ In (length lines) (map fst (search t []))
  /\ (forall k ctx, In (k, ctx) (search t q) -> length lines <= k + 2 ->
        exists w, w <> [] /\ ctx = join nl (w ++ [[]])).
Proof.
  cbv zeta. rewrite split_nl_app_nl.
  assert (HL : split_nl s <> []) by apply split_nl_not_nil.
  assert (Hlen : 1 <= length (split_nl s))
    by (destruct (split_nl s); [contradiction|simpl; lia]).
  split; [reflexivity|split; [|split]].
  - rewrite length_app, app_nth2 by (simpl; lia).
    simpl. replace (length (split_nl s) + 1 - 1 - length (split_nl s)) with 0 by lia.
    reflexivity.
  - rewrite search_fst, (filter_ext _ (fun _ => true)) by (intros; apply includes_empty).
    rewrite filter_true, in_seq, split_nl_app_nl, length_app. simpl. lia.
  - intros k ctx Hin Hk.
    pose proof (search_ctx (s ++ nl) q) as HF. rewrite Forall_forall in HF.
    destruct (HF _ Hin) as [Hr Hc]. simpl in Hr, Hc.
    rewrite split_nl_app_nl in Hr, Hc. rewrite length_app in Hr, Hk. simpl in Hr, Hk.
    rewrite Hc. unfold context, slice. rewrite length_app. simpl.
    set (L := split_nl s) in *.
    replace (Nat.min (length L + 1) (k - 1 + 3)) with (length L + 1) by lia.
    rewrite firstn_all2.
    2:{ rewrite length_skipn, length_app. simpl. lia. }
    rewrite skipn_app. replace (k - 1 - 2 - length L) with 0 by lia.
    exists (skipn (k - 1 - 2) L). split; [|reflexivity].
    intros He. assert (length (skipn (k - 1 - 2) L) = 0) by (rewrite He; reflexivity).
    rewrite length_skipn in H. lia.
Qed.

End SearchClaims.

Module DirFacts.
Import DirTree.


Lemma str_eqb_spec (a b : str) : str_eqb a b = true <-> a = b.
Proof. unfold str_eqb. destruct (list_eq_dec ascii_dec a b); split; congruence. Qed.

Lemma str_eqb_refl (a : str) : str_eqb a a = true.
Proof. apply str_eqb_spec. reflexivity. Qed.

Lemma startsWith_spec (s p : str) : startsWith s p = true <-> exists z, s = p ++ z.
Proof.
  revert s; induction p as [|c p IH]; intros [|d s]; simpl.
  - split; eauto.
  - split; eauto.
  - split; [discriminate|intros [z Hz]; discriminate].
  - destruct (ascii_dec c d) as [->|Hne].
    + rewrite IH. split; intros [z Hz]; exists z; congruence.
    + split; [discriminate|intros [z Hz]; congruence].
Qed.

Lemma name_ok_spec (n : str) : name_ok n = true <-> n <> [] /\ ~ In slash_char n.
Proof.
  unfold name_ok. rewrite andb_true_iff, !negb_true_iff.
  split.
  - intros [H1 H2]. split; [destruct n; discriminate|].
    intros Hin. assert (existsb (fun c => if ascii_dec c slash_char then true else false) n = true)
      by (apply existsb_exists; exists slash_char; split; [assumption|destruct (ascii_dec slash_char slash_char); congruence]).
    congruence.
  - intros [H1 H2]. split; [destruct n; [contradiction|reflexivity]|].
    destruct (existsb _ n) eqn:E; [|reflexivity].
    apply existsb_exists in E as [c [Hc Hc']].
    destruct (ascii_dec c slash_char) as [->|]; [contradiction|discriminate].
Qed.

Lemma distinct_head (n : str) (ns : list str) :
  distinct_names (n :: ns) = true -> ~ In n ns /\ distinct_names ns = true.
Proof.
  simpl. rewrite andb_true_iff, negb_true_iff. intros [H1 H2]. split; [|assumption].
  intros Hin. assert (existsb (str_eqb n) ns = true)
    by (apply existsb_exists; exists n; split; [assumption|apply str_eqb_refl]).
  congruence.
Qed.

Lemma wf_cons (e : entry) (rest : list entry) :
  wf_entries (e :: rest) = true ->
  wf_entry e = true /\ wf_entries rest = true /\ ~ In (entry_name e) (map entry_name rest).
Proof.
  unfold wf_entries. cbn [map forallb]. intros H.
  apply andb_prop in H as [Hd H]. apply andb_prop in H as [He Hr].
  apply distinct_head in Hd as [Hn Hd]. rewrite Hd, Hr. auto.
Qed.

Lemma wf_entry_name (e : entry) : wf_entry e = true -> name_ok (entry_name e) = true.
Proof. destruct e; simpl; rewrite andb_true_iff; tauto. Qed.

Lemma wf_entry_dir (n : str) (cs : list entry) :
  wf_entry (Dir n cs) = true -> wf_entries cs = true.
Proof. simpl. rewrite !andb_true_iff. unfold wf_entries. rewrite andb_true_iff. tauto. Qed.

Lemma traverse_cons (p : str) (e : entry) (rest : list entry) :
  traverse p (e :: rest) = visit p e ++ traverse p rest.
Proof. reflexivity. Qed.

Lemma visit_file (p n : str) :
  visit p (File n) = if skipped n then [] else [path_join p n].
Proof. reflexivity. Qed.

Lemma visit_dir (p n : str) (cs : list entry) :
  visit p (Dir n cs) =
  if skipped n then []
  else (path_join p n ++ [slash_char]) :: traverse (path_join p n) cs.
Proof. reflexivity. Qed.


Lemma path_join_prefix (p n : str) : path_join p n = join_prefix p ++ n.
Proof. destruct p; [reflexivity|]. unfold path_join, join_prefix. rewrite <- app_assoc. reflexivity. Qed.

Lemma join_prefix_nonempty (x : str) : x <> [] -> join_prefix x = x ++ [slash_char].
Proof. destruct x; [contradiction|reflexivity]. Qed.

Lemma name_last_not_slash (n : str) (x r : str) :
  name_ok n = true -> x ++ n <> r ++ [slash_char].
Proof.
  intros Hn He. apply name_ok_spec in Hn as [Hne Hs].
  destruct (exists_last Hne) as [n0 [ch ->]].
  rewrite app_assoc in He. apply app_inj_tail in He as [_ ->].
  apply Hs, in_or_app. right. left. reflexivity.
Qed.

Lemma sep_names (a a' z y : str) :
  ~ In slash_char a -> ~ In slash_char a' ->
  a ++ slash_char :: z = a' ++ y ->
  (y = [] \/ exists y', y = slash_char :: y') -> a = a'.
Proof.
  revert a'; induction a as [|c a IH]; intros [|c' a'] Ha Ha' He Hy; simpl in *.
  - reflexivity.
  - exfalso. injection He as Hc _. subst c'. auto.
  - exfalso. destruct Hy as [->|[y' ->]]; [discriminate|].
    injection He as Hc _. subst c. auto.
  - injection He as -> He. f_equal. apply IH; auto.
Qed.

Lemma traverse_form (es : list entry) :
  wf_entries es = true ->
  forall p o, In o (traverse p es) ->
  exists n t, In n (map entry_name es) /\ name_ok n = true
              /\ o = join_prefix p ++ n ++ t
              /\ (t = [] \/ exists t', t = slash_char :: t').
Proof.
  induction es as [|n rest IH|n cs rest IHcs IH] using entries_ind;
    intros Hwf p o Hin; [contradiction| |];
    apply wf_cons in Hwf as [He [Hr _]]; apply wf_entry_name in He as Hn;
    simpl entry_name in Hn.
  - rewrite traverse_cons, visit_file in Hin. apply in_app_or in Hin as [Hin|Hin].
    + destruct (skipped n); [contradiction|]. destruct Hin as [<-|[]].
      exists n, []. rewrite path_join_prefix, app_nil_r. simpl. auto.
    + destruct (IH Hr p o Hin) as (m & t & Hm & Hok & Ho & Ht).
      exists m, t. simpl. auto.
  - apply wf_entry_dir in He as Hcs.
    rewrite traverse_cons, visit_dir in Hin. apply in_app_or in Hin as [Hin|Hin].
    + destruct (skipped n); [contradiction|]. rewrite path_join_prefix in Hin.
      destruct Hin as [<-|Hin].
      * exists n, [slash_char]. rewrite app_assoc. simpl. eauto 10.
      * destruct (IHcs Hcs _ o Hin) as (m & t & Hm & Hok & Ho & Ht).
        assert (Hne : join_prefix p ++ n <> []).
        { intros H. apply app_eq_nil in H as [_ ->]. apply name_ok_spec in Hn. tauto. }
        rewrite join_prefix_nonempty in Ho by exact Hne.
        exists n, (slash_char :: m ++ t). simpl. repeat split; eauto.
        rewrite Ho. rewrite <- !app_assoc. reflexivity.
    + destruct (IH Hr p o Hin) as (m & t & Hm & Hok & Ho & Ht).
      exists m, t. simpl. auto.
Qed.

Lemma under_spec (r o : str) :
  under r o = true <-> (exists z, o = (r ++ [slash_char]) ++ z) /\ o <> r ++ [slash_char].
Proof.
  unfold under. rewrite andb_true_iff, startsWith_spec, negb_true_iff.
  split; intros [H1 H2]; split; auto.
  - intros E. apply str_eqb_spec in E. congruence.
  - destruct (str_eqb o (r ++ [slash_char])) eqn:E; [|reflexivity].
    apply str_eqb_spec in E. contradiction.
Qed.

Lemma filter_all_true {A} (f : A -> bool) (l : list A) :
  (forall x, In x l -> f x = true) -> filter f l = l.
Proof.
  induction l as [|x l IH]; intros H; simpl; [reflexivity|].
  rewrite H by (left; reflexivity). f_equal. apply IH. intros y Hy. apply H. right. exact Hy.
Qed.

Lemma filter_all_false {A} (f : A -> bool) (l : list A) :
  (forall x, In x l -> f x = false) -> filter f l = [].
Proof.
  induction l as [|x l IH]; intros H; simpl; [reflexivity|].
  rewrite H by (left; reflexivity). apply IH. intros y Hy. apply H. right. exact Hy.
Qed.

(** An entry below a sibling [m] of [n] is not below the directory [n]. *)
Lemma not_under_sibling (p n m t r W o : str) :
  name_ok n = true -> name_ok m = true -> n <> m ->
  o = join_prefix p ++ m ++ t -> (t = [] \/ exists t', t = slash_char :: t') ->
  r ++ [slash_char] = join_prefix p ++ n ++ slash_char :: W ->
  under r o = false.
Proof.
  intros Hn Hm Hnm Ho Ht Hr.
  destruct (under r o) eqn:E; [|reflexivity]. exfalso.
  apply under_spec in E as [[z Hz] _]. rewrite Hr, Ho in Hz.
  rewrite <- app_assoc in Hz. apply app_inv_head in Hz. simpl in Hz.
  rewrite <- app_assoc in Hz. simpl in Hz.
  apply name_ok_spec in Hn as [_ Hn]. apply name_ok_spec in Hm as [_ Hm].
  apply Hnm. symmetry in Hz. eapply sep_names; eauto.
Qed.

(** A directory entry [r ++ "/"] in the listing is [prefix/m/...]. *)
Lemma dir_entry_form (es : list entry) (p r : str) :
  wf_entries es = true -> In (r ++ [slash_char]) (traverse p es) ->
  exists m t', In m (map entry_name es) /\ name_ok m = true
               /\ r ++ [slash_char] = join_prefix p ++ m ++ slash_char :: t'.
Proof.
  intros Hwf Hin. destruct (traverse_form es Hwf p _ Hin) as (m & t & Hm & Hok & Ho & Ht).
  destruct Ht as [->|[t' ->]].
  - exfalso. rewrite app_nil_r in Ho.
    exact (name_last_not_slash m (join_prefix p) r Hok (eq_sym Ho)).
  - exists m, t'. auto.
Qed.

Lemma in_names_neq (n m : str) (ns : list str) : ~ In n ns -> In m ns -> n <> m.
Proof. intros H1 H2 ->. contradiction. Qed.

Lemma traverse_contiguous (es : list entry) :
  wf_entries es = true ->
  forall p r, In (r ++ [slash_char]) (traverse p es) ->
  exists A C, traverse p es = A ++ (r ++ [slash_char]) :: filter (under r) (traverse p es) ++ C.
Proof.
  induction es as [|n rest IH|n cs rest IHcs IH] using entries_ind;
    intros Hwf p r Hin; [contradiction| |];
    assert (Hwf' := Hwf); apply wf_cons in Hwf' as [He [Hr Hfresh]];
    apply wf_entry_name in He as Hn; simpl entry_name in Hn, Hfresh;
    rewrite traverse_cons in *.
  - (* a file *)
    rewrite visit_file in *. destruct (skipped n) eqn:Hsk; [apply IH; auto|].
    rewrite path_join_prefix in *. simpl in Hin |- *. destruct Hin as [Heq|Hin].
    + exfalso. apply (name_last_not_slash n (join_prefix p) r Hn). exact Heq.
    + destruct (IH Hr p r Hin) as (A & C & HT).
      destruct (dir_entry_form rest p r Hr Hin) as (m & t' & Hm & Hmok & Hrf).
      assert (Hq : under r (join_prefix p ++ n) = false).
      { eapply not_under_sibling with (n := m) (m := n) (t := []); eauto.
        - apply not_eq_sym. eapply in_names_neq; eauto.
        - rewrite app_nil_r. reflexivity. }
      rewrite Hq. exists ((join_prefix p ++ n) :: A), C. rewrite HT at 1. reflexivity.
  - (* a directory *)
    apply wf_entry_dir in He as Hcs.
    rewrite visit_dir in *. destruct (skipped n) eqn:Hsk; [apply IH; auto|].
    rewrite path_join_prefix in *. set (Q := join_prefix p ++ n) in *.
    assert (HQ : Q <> []).
    { unfold Q. intros H. apply app_eq_nil in H as [_ ->]. apply name_ok_spec in Hn. tauto. }
    assert (Hsub : forall o, In o (traverse Q cs) ->
              exists m t, name_ok m = true /\ o = join_prefix p ++ n ++ slash_char :: m ++ t).
    { intros o Ho. destruct (traverse_form cs Hcs Q o Ho) as (m & t & _ & Hm & Ho' & _).
      exists m, t. split; [assumption|]. rewrite Ho', join_prefix_nonempty by exact HQ.
      unfold Q. rewrite <- !app_assoc. reflexivity. }
    assert (Hsib : forall o, In o (traverse p rest) ->
              exists m t, In m (map entry_name rest) /\ name_ok m = true
                          /\ o = join_prefix p ++ m ++ t
                          /\ (t = [] \/ exists t', t = slash_char :: t')).
    { intros o Ho. exact (traverse_form rest Hr p o Ho). }
    simpl in Hin |- *. rewrite filter_app.
    destruct Hin as [Heq|Hin]; [|apply in_app_or in Hin as [Hin|Hin]].
    + (* the directory itself *)
      apply app_inj_tail in Heq as [<- _].
      assert (Hself : under Q (Q ++ [slash_char]) = false).
      { destruct (under Q (Q ++ [slash_char])) eqn:E; [|reflexivity].
        apply under_spec in E as [_ E]. congruence. }
      rewrite Hself.
      rewrite (filter_all_true (under Q) (traverse Q cs)).
      2:{ intros o Ho. destruct (Hsub o Ho) as (m & t & Hm & ->). apply under_spec. split.
          - exists (m ++ t). unfold Q. rewrite <- !app_assoc. reflexivity.
          - intros E. unfold Q in E. rewrite <- !app_assoc in E. apply app_inv_head in E.
            apply app_inv_head in E. injection E as E.
            apply name_ok_spec in Hm as [Hm _]. destruct m; [contradiction|discriminate]. }
      rewrite (filter_all_false (under Q) (traverse p rest)).
      2:{ intros o Ho. destruct (Hsib o Ho) as (m & t & Hm & Hmok & Ho' & Ht).
          eapply not_under_sibling with (n := n) (m := m) (W := []); eauto.
          - eapply in_names_neq; eauto.
          - unfold Q. rewrite <- app_assoc. reflexivity. }
      exists [], (traverse p rest). rewrite app_nil_r. reflexivity.
    + (* below the directory *)
      destruct (IHcs Hcs Q r Hin) as (A & C & HT).
      destruct (dir_entry_form cs Q r Hcs Hin) as (m & t' & _ & Hmok & Hrf).
      rewrite join_prefix_nonempty in Hrf by exact HQ.
      assert (Hrf' : r ++ [slash_char] = join_prefix p ++ n ++ slash_char :: m ++ slash_char :: t').
      { rewrite Hrf. unfold Q. rewrite <- !app_assoc. reflexivity. }
      assert (Hself : under r (Q ++ [slash_char]) = false).
      { destruct (under r (Q ++ [slash_char])) eqn:E; [|reflexivity].
        apply under_spec in E as [[z Hz] _]. exfalso.
        rewrite Hrf in Hz. apply (f_equal (@length ascii)) in Hz.
        rewrite !length_app in Hz. simpl in Hz.
        apply name_ok_spec in Hmok as [Hm0 _]. destruct m; [contradiction|simpl in Hz; lia]. }
      rewrite Hself.
      rewrite (filter_all_false (under r) (traverse p rest)).
      2:{ intros o Ho. destruct (Hsib o Ho) as (m' & t & Hm' & Hmok' & Ho' & Ht).
          eapply not_under_sibling with (n := n) (m := m'); eauto.
          eapply in_names_neq; eauto. }
      exists ((Q ++ [slash_char]) :: A), (C ++ traverse p rest).
      rewrite HT at 1. simpl. rewrite app_nil_r.
      repeat (rewrite <- app_assoc; simpl). reflexivity.
    + (* below a later sibling *)
      destruct (IH Hr p r Hin) as (A & C & HT).
      destruct (dir_entry_form rest p r Hr Hin) as (m & t' & Hm & Hmok & Hrf).
      assert (Hnm : m <> n) by (apply not_eq_sym; eapply in_names_neq; eauto).
      assert (Hself : under r (Q ++ [slash_char]) = false).
      { eapply not_under_sibling with (n := m) (m := n) (t := [slash_char]); eauto.
        unfold Q. rewrite <- app_assoc. reflexivity. }
      rewrite Hself.
      rewrite (filter_all_false (under r) (traverse Q cs)).
      2:{ intros o Ho. destruct (Hsub o Ho) as (m' & t & Hm' & ->).
          eapply not_under_sibling with (n := m) (m := n); eauto. }
      exists ((Q ++ [slash_char]) :: traverse Q cs ++ A), C.
      rewrite HT at 1. simpl.
      repeat (rewrite <- app_assoc; simpl). reflexivity.
Qed.

Lemma join_cons2 (sep x y : str) (zs : list str) :
  join sep (x :: y :: zs) = x ++ sep ++ join sep (y :: zs).
Proof. reflexivity. Qed.

Lemma join_snoc (sep : str) (xs : list str) (y : str) :
  join sep (xs ++ [y]) = match xs with [] => y | _ => join sep xs ++ sep ++ y end.
Proof.
  induction xs as [|x xs IH]; [reflexivity|].
  destruct xs as [|x' xs']; [reflexivity|].
  change ((x :: x' :: xs') ++ [y]) with (x :: x' :: (xs' ++ [y])).
  rewrite join_cons2. change (x' :: xs' ++ [y]) with ((x' :: xs') ++ [y]).
  rewrite IH, join_cons2. rewrite <- !app_assoc. reflexivity.
Qed.

Lemma join_not_nil (sep c : str) (cs : list str) : c <> [] -> join sep (c :: cs) <> [].
Proof.
  intros Hc. destruct cs; simpl; [exact Hc|].
  intros H. apply app_eq_nil in H as [H _]. contradiction.
Qed.

Lemma path_join_join (cp : list str) (n : str) :
  Forall (fun c => c <> []) cp ->
  path_join (join [slash_char] cp) n = join [slash_char] (cp ++ [n]).
Proof.
  intros H. rewrite join_snoc. destruct cp as [|c cp']; [reflexivity|].
  inversion H as [|? ? Hc _]; subst.
  destruct (join [slash_char] (c :: cp')) eqn:E; [exfalso; exact (join_not_nil _ c cp' Hc E)|].
  reflexivity.
Qed.

Lemma node_at_cons (e : entry) (rest : list entry) (cs : list str) :
  node_at (e :: rest) cs
  = match node_at_entry e cs with Some x => Some x | None => node_at rest cs end.
Proof. unfold node_at. simpl. destruct (node_at_entry e cs); reflexivity. Qed.

Lemma node_at_entry_other (e : entry) (c : str) (cs : list str) :
  entry_name e <> c -> node_at_entry e (c :: cs) = None.
Proof.
  intros Hne. destruct e as [n|n ch]; simpl in *;
    destruct (str_eqb n c) eqn:E; try reflexivity; apply str_eqb_spec in E; contradiction.
Qed.

Lemma traverse_paths (es : list entry) :
  wf_entries es = true ->
  forall cp, Forall (fun c => c <> []) cp ->
  forall o, In o (traverse (join [slash_char] cp) es) ->
  exists c cs b, o = render (cp ++ c :: cs) b /\ In c (map entry_name es)
                 /\ Forall (fun x => skipped x = false /\ name_ok x = true) (c :: cs)
                 /\ node_at es (c :: cs) = Some b.
Proof.
  induction es as [|n rest IH|n ch rest IHch IH] using entries_ind;
    intros Hwf cp Hcp o Hin; [contradiction| |];
    assert (Hwf' := Hwf); apply wf_cons in Hwf' as [He [Hr Hfresh]];
    apply wf_entry_name in He as Hn; simpl entry_name in Hn, Hfresh;
    rewrite traverse_cons in Hin; apply in_app_or in Hin as [Hin|Hin].
  - rewrite visit_file in Hin. destruct (skipped n) eqn:Hsk; [contradiction|].
    destruct Hin as [<-|[]]. exists n, [], false. repeat split; auto.
    + unfold render. rewrite app_nil_r. apply path_join_join. exact Hcp.
    + left. reflexivity.
    + rewrite node_at_cons. simpl. rewrite str_eqb_refl. reflexivity.
  - destruct (IH Hr cp Hcp o Hin) as (c & cs & b & Ho & Hc & Hv & Hnode).
    exists c, cs, b. repeat split; auto.
    + right. exact Hc.
    + rewrite node_at_cons, node_at_entry_other; [exact Hnode|].
      simpl. intros ->. contradiction.
  - apply wf_entry_dir in He as Hch.
    rewrite visit_dir in Hin. destruct (skipped n) eqn:Hsk; [contradiction|].
    assert (Hn0 : n <> []) by (apply name_ok_spec in Hn; tauto).
    rewrite path_join_join in Hin by exact Hcp. destruct Hin as [<-|Hin].
    + exists n, [], true. repeat split; auto.
      * left. reflexivity.
      * rewrite node_at_cons. simpl. rewrite str_eqb_refl. reflexivity.
    + assert (Hcp' : Forall (fun c => c <> []) (cp ++ [n]))
        by (apply Forall_app; auto).
      destruct (IHch Hch (cp ++ [n]) Hcp' o Hin) as (c & cs & b & Ho & Hc & Hv & Hnode).
      exists n, (c :: cs), b. repeat split; auto.
      * rewrite Ho, <- app_assoc. reflexivity.
      * left. reflexivity.
      * rewrite node_at_cons. simpl. rewrite str_eqb_refl.
        unfold node_at in Hnode. rewrite Hnode. reflexivity.
  - destruct (IH Hr cp Hcp o Hin) as (c & cs & b & Ho & Hc & Hv & Hnode).
    exists c, cs, b. repeat split; auto.
    + right. exact Hc.
    + rewrite node_at_cons, node_at_entry_other; [exact Hnode|].
      simpl. intros ->. contradiction.
Qed.

Lemma join_last (cs : list str) :
  cs <> [] -> Forall (fun x => name_ok x = true) cs ->
  exists x ch, join [slash_char] cs = x ++ [ch] /\ ch <> slash_char.
Proof.
  induction cs as [|c cs IH]; intros Hne Hok; [contradiction|].
  inversion Hok as [|? ? Hc Hrest]; subst.
  apply name_ok_spec in Hc as [Hc0 Hcs].
  destruct cs as [|c' cs'].
  - destruct (exists_last Hc0) as [x [ch ->]]. exists x, ch. split; [reflexivity|].
    intros ->. apply Hcs, in_or_app. right. left. reflexivity.
  - destruct IH as (x & ch & Hx & Hch); [discriminate|assumption|].
    exists (c ++ [slash_char] ++ x), ch. split; [|assumption].
    rewrite join_cons2, Hx, <- !app_assoc. reflexivity.
Qed.

Lemma ends_with_slash_render (cs : list str) (b : bool) :
  cs <> [] -> Forall (fun x => name_ok x = true) cs -> ends_with_slash (render cs b) = b.
Proof.
  intros Hne Hok. destruct (join_last cs Hne Hok) as (x & ch & Hx & Hch).
  unfold render, ends_with_slash. rewrite Hx.
  destruct b; rewrite rev_app_distr; simpl.
  - destruct (ascii_dec slash_char slash_char); congruence.
  - rewrite rev_app_distr. simpl. destruct (ascii_dec ch slash_char); congruence.
Qed.

End DirFacts.


Module ServerFacts.
Import DirTree Server.

Lemma readAgentsMd_ok (p : platform) (w : world) (c : str) :
  doc_at (wc w) p = Ok c -> readAgentsMd p w = Out [ReadFile p] w (Ok c).
Proof. intros H. unfold readAgentsMd, catch, fs_readFile, bind, emit, get, ret. simpl. rewrite H. reflexivity. Qed.

Lemma readAgentsMd_err (p : platform) (w : world) (e : error) :
  doc_at (wc w) p = Err e ->
  readAgentsMd p w
  = Out [ReadFile p] w (Err (JsError (lit "Failed to read AGENTS.md for " ++ platform_str p
                                       ++ lit ": " ++ error_to_string e))).
Proof. intros H. unfold readAgentsMd, catch, fs_readFile, bind, emit, get, ret, throw. simpl. rewrite H. reflexivity. Qed.

Lemma readAgentsMd_shape (p : platform) (w : world) :
  events (readAgentsMd p w) = [ReadFile p] /\ final (readAgentsMd p w) = w.
Proof.
  destruct (doc_at (wc w) p) eqn:E;
    [rewrite (readAgentsMd_ok p w a E)|rewrite (readAgentsMd_err p w e E)]; auto.
Qed.

Lemma getDirectoryStructure_events (p : platform) (w : world) :
  events (getDirectoryStructure p w) = [ReadDir p].
Proof.
  unfold getDirectoryStructure, fs_readdir, bind, emit, get, ret, throw. simpl.
  destruct (tree_at (wc w) p); reflexivity.
Qed.

Lemma ensured_from_true (evs : list event) : ensured_before_reads_from true evs = true.
Proof. induction evs as [|[] evs IH]; simpl; auto. Qed.

Lemma events_bind_prefix {A B} (m : M A) (k : A -> M B) (w : world) :
  exists l, events (bind m k w) = events (m w) ++ l.
Proof.
  unfold bind. destruct (value (m w)); simpl; eauto. exists []. rewrite app_nil_r. reflexivity.
Qed.

Lemma events_catch_prefix {A} (m : M A) (h : error -> M A) (w : world) :
  exists l, events (catch m h w) = events (m w) ++ l.
Proof.
  unfold catch. destruct (value (m w)); simpl; eauto. exists []. rewrite app_nil_r. reflexivity.
Qed.

Lemma ensureRepo_events_head (w : world) : exists l, events (ensureRepo w) = EnsureRepo :: l.
Proof. unfold ensureRepo at 1, bind at 1, emit at 1. simpl. eauto. Qed.

Lemma bind_events_head {A B} (m : M A) (k : A -> M B) (w : world) (l : list event) :
  events (m w) = EnsureRepo :: l -> exists l', events (bind m k w) = EnsureRepo :: l'.
Proof.
  intros H. destruct (events_bind_prefix m k w) as [l' Hl']. rewrite Hl', H. simpl. eauto.
Qed.

Lemma readAgentsMd_no_ensure (p : platform) (w : world) (k : str -> M str) :
  (forall c w', ~ In EnsureRepo (events (k c w'))) ->
  ~ In EnsureRepo (events (bind (readAgentsMd p) k w)).
Proof.
  intros Hk. unfold bind at 1. destruct (readAgentsMd_shape p w) as [He _].
  destruct (value (readAgentsMd p w)); simpl; rewrite He; simpl.
  - intros [H|H]; [discriminate|]. exact (Hk _ _ H).
  - intros [H|[]]. discriminate.
Qed.

Lemma section_action_shape (p : platform) (w : world) :
  events (bind (readAgentsMd p) (fun c => ret (context_section p c)) w) = [ReadFile p]
  /\ final (bind (readAgentsMd p) (fun c => ret (context_section p c)) w) = w.
Proof.
  destruct (readAgentsMd_shape p w) as [He Hf]. unfold bind.
  destruct (value (readAgentsMd p w)); simpl; rewrite ?app_nil_r, ?He, ?Hf; auto.
Qed.

Lemma promise_all_shape {A} (ms : list (M A)) (w : world) :
  (forall m, In m ms -> forall w', final (m w') = w') ->
  events (promise_all ms w) = flat_map (fun m => events (m w)) ms
  /\ final (promise_all ms w) = w.
Proof.
  induction ms as [|m ms IH]; intros H; simpl; [auto|].
  rewrite (H m (or_introl eq_refl) w).
  destruct IH as [IH1 IH2]; [intros m' Hm'; apply H; right; exact Hm'|].
  rewrite IH1, IH2. auto.
Qed.

Lemma get_all_contexts_events (w : world) :
  events (get_all_contexts w) = map ReadFile config_platforms.
Proof.
  unfold get_all_contexts, bind at 1.
  destruct (promise_all_shape
              (map (fun p => content <- readAgentsMd p ;; ret (context_section p content))
                   config_platforms) w) as [He _].
  { intros m Hm w'. apply in_map_iff in Hm as [p [<- _]]. apply section_action_shape. }
  destruct (value (promise_all _ w)); cbn [events]; rewrite He; rewrite ?app_nil_r;
    cbn [flat_map map config_platforms]; rewrite !(proj1 (section_action_shape _ w)); reflexivity.
Qed.

Lemma promise_all_cons {A} (m : M A) (ms : list (M A)) (w : world) :
  promise_all (m :: ms) w
  = Out (events (m w) ++ events (promise_all ms (final (m w))))
        (final (promise_all ms (final (m w))))
        (match value (m w), value (promise_all ms (final (m w))) with
         | Ok a, Ok l => Ok (a :: l)
         | Err e, _ => Err e
         | Ok _, Err e => Err e
         end).
Proof. reflexivity. Qed.
Lemma bind_value_ok {A B} (m : M A) (k : A -> M B) (w : world) (a : A) :
  value (m w) = Ok a -> value (bind m k w) = value (k a (final (m w))).
Proof. intros H. unfold bind. rewrite H. reflexivity. Qed.
Lemma map_config_platforms {B} (f : platform -> B) :
  map f config_platforms = [f BACKEND; f FRONTEND; f MOBILE].
Proof. reflexivity. Qed.
End ServerFacts.


Module ServerClaims.
Import DirTree Server ServerFacts.


(** C1 (counterexample): with the working copy present and the pull
    failing, [ensureRepo] does not succeed. *)
Lemma ensureRepo_pull_failure_not_success :
  value (ensureRepo offline_world) <> Ok tt.
Proof. vm_compute. discriminate. Qed.

(** C1 (amended): when the working copy exists and the pull fails,
    [ensureRepo] logs the error and rethrows it; the failed pull leaves the
    world (and so the working copy) as it was, which the reads that do not
    call [ensureRepo] go on seeing, while a resource read, which calls it
    first, fails with that error. *)
Theorem ensureRepo_pull_failure_propagates (w : world) (e : error) :
  dir_exists w = true -> pull_outcome w = Err e ->
  value (ensureRepo w) = Err e
  /\ final (ensureRepo w) = w
  /\ In (Log Error_ (lit "Error managing repository: " ++ error_to_string e))
        (events (ensureRepo w))
  /\ (forall p, value (resource_read p w) = Err e).
Proof.
  intros Hd Hp.
  assert (H : value (ensureRepo w) = Err e /\ final (ensureRepo w) = w
              /\ In (Log Error_ (lit "Error managing repository: " ++ error_to_string e))
                    (events (ensureRepo w))).
  { destruct w as [de c co po]. simpl in Hd, Hp. subst de po.
    split; [reflexivity|split; [reflexivity|]].
    vm_compute. right. right. right. right. left. reflexivity. }
  destruct H as (H1 & H2 & H3). split; [exact H1|split; [exact H2|split; [exact H3|]]].
  intros p. unfold resource_read, bind at 1. rewrite H1. reflexivity.
Qed.

Lemma ensureRepo_pull_failure_propagates_witness :
  dir_exists offline_world = true
  /\ pull_outcome offline_world = Err (GitError (lit "fatal: unable to access remote"))
  /\ value (ensureRepo offline_world) = Err (GitError (lit "fatal: unable to access remote"))
  /\ value (resource_read BACKEND offline_world) = Err (GitError (lit "fatal: unable to access remote")).
Proof.
  assert (H1 : dir_exists offline_world = true) by reflexivity.
  assert (H2 : pull_outcome offline_world = Err (GitError (lit "fatal: unable to access remote"))) by reflexivity.
  destruct (ensureRepo_pull_failure_propagates offline_world _ H1 H2) as (Hv & _ & _ & Hr).
  split; [exact H1|split; [exact H2|split; [exact Hv|exact (Hr BACKEND)]]].
Defined.

(** C2 (counterexample): the three tools read the working copy without a
    call of [ensureRepo] in the same request. *)
Lemma tools_read_without_ensure :
  ensured_before_reads (events (search_best_practices BACKEND (lit "auth") offline_world)) = false
  /\ ensured_before_reads (events (get_boilerplate_structure BACKEND offline_world)) = false
  /\ ensured_before_reads (events (get_all_contexts offline_world)) = false.
Proof. vm_compute. auto. Qed.

(** C2 (amended): [ensureRepo] runs first at start-up ([repoTools]) and
    first in every resource read; the [get_boilerplate_structure],
    [search_best_practices] and [get_all_contexts] tools never call it. *)
Theorem ensure_at_startup_and_resource_reads :
  (forall w, exists l, events (repoTools_init w) = EnsureRepo :: l)
  /\ (forall w p, (exists l, events (resource_read p w) = EnsureRepo :: l)
                  /\ ensured_before_reads (events (resource_read p w)) = true)
  /\ (forall w p, ~ In EnsureRepo (events (get_boilerplate_structure p w)))
  /\ (forall w p q, ~ In EnsureRepo (events (search_best_practices p q w)))
  /\ (forall w, ~ In EnsureRepo (events (get_all_contexts w))).
Proof.
  split; [|split; [|split; [|split]]].
  - intros w. destruct (ensureRepo_events_head w) as [l Hl].
    destruct (events_catch_prefix ensureRepo
                (fun e => emit (Log Error_ (lit "Failed to initialize repository: "
                                            ++ error_to_string e)) ;;; throw (ProcessExit 1)) w)
      as [l' Hl']. unfold repoTools_init. rewrite Hl', Hl. simpl. eauto.
  - intros w p. destruct (ensureRepo_events_head w) as [l Hl].
    destruct (bind_events_head ensureRepo (fun _ => content <- readAgentsMd p ;; ret content) w l Hl)
      as [l' Hl']. unfold resource_read. rewrite Hl'. split; [eauto|].
    unfold ensured_before_reads. simpl. apply ensured_from_true.
  - intros w p. unfold get_boilerplate_structure, bind at 1.
    rewrite getDirectoryStructure_events.
    destruct (value (getDirectoryStructure p w)); simpl; intros [H|H]; try discriminate; auto.
  - intros w p q. unfold search_best_practices. apply readAgentsMd_no_ensure. intros c w' [].
  - intros w. rewrite get_all_contexts_events. simpl. intuition discriminate.
Qed.

End ServerClaims.


Module ReaderClaims.
Import DirTree DirFacts Server ServerFacts.

Lemma getDirectoryStructure_ok (w : world) (p : platform) (es : list entry) :
  tree_at (wc w) p = Ok es -> value (getDirectoryStructure p w) = Ok (structure_of es).
Proof.
  intros H. unfold getDirectoryStructure, fs_readdir, bind, emit, get, ret. simpl.
  rewrite H. reflexivity.
Qed.

(** C5: for a platform whose directory lists [es] (a well-formed listing),
    [getDirectoryStructure] returns paths whose components never begin
    with "." and are never "node_modules"; each path names a node of the
    tree, and ends with "/" exactly when that node is a directory; and each
    directory entry is followed at once by the block of all entries below
    it, before any entry that is not below it. *)
Theorem getDirectoryStructure_spec (w : world) (p : platform) (es : list entry) :
  tree_at (wc w) p = Ok es -> wf_entries es = true ->
  value (getDirectoryStructure p w) = Ok (structure_of es)
  /\ (forall o, In o (structure_of es) ->
        exists cs b, o = render cs b /\ cs <> []
                     /\ Forall (fun c => startsWith c (lit ".") = false
                                         /\ str_eqb c (lit "node_modules") = false) cs
                     /\ node_at es cs = Some b
                     /\ ends_with_slash o = b)
  /\ (forall r, In (r ++ [slash_char]) (structure_of es) ->
        exists A C, structure_of es
                    = A ++ (r ++ [slash_char]) :: filter (under r) (structure_of es) ++ C).
Proof.
  intros Ht Hwf. split; [apply getDirectoryStructure_ok; exact Ht|split].
  - intros o Ho.
    destruct (traverse_paths es Hwf [] (Forall_nil _) o Ho) as (c & cs & b & Hr & _ & Hv & Hn).
    exists (c :: cs), b. simpl in Hr.
    assert (Hok : Forall (fun x => name_ok x = true) (c :: cs))
      by (eapply Forall_impl; [|exact Hv]; intros x [_ H]; exact H).
    repeat split; [exact Hr|discriminate| |exact Hn|].
    + eapply Forall_impl; [|exact Hv]. intros x [Hs _]. unfold skipped in Hs.
      apply orb_false_iff in Hs. exact Hs.
    + rewrite Hr. apply ends_with_slash_render; [discriminate|exact Hok].
  - intros r Hin. exact (traverse_contiguous es Hwf [] r Hin).
Qed.

Lemma getDirectoryStructure_spec_witness :
  tree_at (wc offline_world) BACKEND = Ok sample_tree
  /\ wf_entries sample_tree = true
  /\ value (getDirectoryStructure BACKEND offline_world) = Ok (structure_of sample_tree)
  /\ structure_of sample_tree
     = [lit "package.json"; lit "src/"; lit "src/main.ts"; lit "src/routes/";
        lit "src/routes/health.ts"].
Proof.
  assert (H1 : tree_at (wc offline_world) BACKEND = Ok sample_tree) by reflexivity.
  assert (H2 : wf_entries sample_tree = true) by (vm_compute; reflexivity).
  split; [exact H1|split; [exact H2|split]].
  - exact (proj1 (getDirectoryStructure_spec offline_world BACKEND sample_tree H1 H2)).
  - vm_compute. reflexivity.
Defined.

(** C6: a missing or unreadable [AGENTS.md] makes [readAgentsMd] reject
    with an [Error] whose message names the platform and carries the text
    of the I/O error; it never succeeds, and [search_best_practices]
    rejects with the same error. *)
Theorem readAgentsMd_missing (w : world) (p : platform) (e : error) :
  doc_at (wc w) p = Err e ->
  value (readAgentsMd p w)
    = Err (JsError (lit "Failed to read AGENTS.md for " ++ platform_str p
                    ++ lit ": " ++ error_to_string e))
  /\ (forall s, value (readAgentsMd p w) <> Ok s)
  /\ (forall q, value (search_best_practices p q w) = value (readAgentsMd p w)).
Proof.
  intros H. rewrite (readAgentsMd_err p w e H). cbn [value].
  split; [reflexivity|split; [intros s; discriminate|]].
  intros q. unfold search_best_practices, bind at 1. rewrite (readAgentsMd_err p w e H).
  reflexivity.
Qed.

Lemma readAgentsMd_missing_witness :
  doc_at (wc offline_world) MOBILE = Err (IoError (lit "ENOENT: no such file or directory"))
  /\ value (readAgentsMd MOBILE offline_world)
     = Err (JsError (lit "Failed to read AGENTS.md for mobile: ENOENT: no such file or directory")).
Proof.
  assert (H : doc_at (wc offline_world) MOBILE = Err (IoError (lit "ENOENT: no such file or directory"))) by reflexivity.
  split; [exact H|].
  rewrite (proj1 (readAgentsMd_missing offline_world MOBILE _ H)). reflexivity.
Defined.

(** C7: [get_all_contexts] reads each platform's document once, in the
    configured order (also when a read fails), and, when the reads succeed,
    returns each platform's heading followed by its full document text, the
    platforms in configured order with a "---" rule between them. *)
Theorem get_all_contexts_spec (w : world) (cb cf cm : str) :
  doc_at (wc w) BACKEND = Ok cb -> doc_at (wc w) FRONTEND = Ok cf ->
  doc_at (wc w) MOBILE = Ok cm ->
  (forall w', events (get_all_contexts w')
              = [ReadFile BACKEND; ReadFile FRONTEND; ReadFile MOBILE])
  /\ value (get_all_contexts w)
     = Ok (lit "## BACKEND AGENTS.md" ++ nl ++ nl ++ cb
           ++ nl ++ nl ++ lit "---" ++ nl ++ nl
           ++ lit "## FRONTEND AGENTS.md" ++ nl ++ nl ++ cf
           ++ nl ++ nl ++ lit "---" ++ nl ++ nl
           ++ lit "## MOBILE AGENTS.md" ++ nl ++ nl ++ cm).
Proof.
  intros Hb Hf Hm. split; [intros w'; apply get_all_contexts_events|].
  assert (Hsec : forall p c, doc_at (wc w) p = Ok c ->
            bind (readAgentsMd p) (fun content => ret (context_section p content)) w
            = Out [ReadFile p] w (Ok (context_section p c))).
  { intros p c Hc. unfold bind at 1. rewrite (readAgentsMd_ok p w c Hc). reflexivity. }
  unfold get_all_contexts. rewrite map_config_platforms.
  erewrite bind_value_ok.
  2:{ rewrite !promise_all_cons. rewrite (Hsec _ _ Hb). cbn [final].
      rewrite (Hsec _ _ Hf). cbn [final]. rewrite (Hsec _ _ Hm). cbn [final value].
      reflexivity. }
  assert (Ub : toUpperCase (platform_str BACKEND) = lit "BACKEND") by (vm_compute; reflexivity).
  assert (Uf : toUpperCase (platform_str FRONTEND) = lit "FRONTEND") by (vm_compute; reflexivity).
  assert (Um : toUpperCase (platform_str MOBILE) = lit "MOBILE") by (vm_compute; reflexivity).
  unfold ret, context_section. rewrite Ub, Uf, Um. cbn [value join].
  unfold rule_sep. rewrite <- !app_assoc. reflexivity.
Qed.

Lemma get_all_contexts_spec_witness :
  doc_at (wc online_world) BACKEND = Ok (lit "Use the auth middleware.")
  /\ doc_at (wc online_world) FRONTEND = Ok (lit "Use hooks.")
  /\ doc_at (wc online_world) MOBILE = Ok (lit "Use the design system.")
  /\ value (get_all_contexts online_world)
     = Ok (lit "## BACKEND AGENTS.md" ++ nl ++ nl ++ lit "Use the auth middleware."
           ++ nl ++ nl ++ lit "---" ++ nl ++ nl
           ++ lit "## FRONTEND AGENTS.md" ++ nl ++ nl ++ lit "Use hooks."
           ++ nl ++ nl ++ lit "---" ++ nl ++ nl
           ++ lit "## MOBILE AGENTS.md" ++ nl ++ nl ++ lit "Use the design system.").
Proof.
  assert (Hb : doc_at (wc online_world) BACKEND = Ok (lit "Use the auth middleware.")) by reflexivity.
  assert (Hf : doc_at (wc online_world) FRONTEND = Ok (lit "Use hooks.")) by reflexivity.
  assert (Hm : doc_at (wc online_world) MOBILE = Ok (lit "Use the design system.")) by reflexivity.
  split; [exact Hb|split; [exact Hf|split; [exact Hm|]]].
  exact (proj2 (get_all_contexts_spec online_world _ _ _ Hb Hf Hm)).
Defined.

End ReaderClaims.


Module HttpClaims.
Import Http DirFacts.






End HttpClaims.

Module SchedulerClaims.
Import GitScheduler.

(** C9 (failing input): two concurrent [ensureRepo] calls with the working
    copy present each create their own [simpleGit(dir)] instance, so the
    two pulls can run at the same time, whatever the default process limit. *)
Theorem two_pulls_run_concurrently (dflt : nat) :
  1 <= dflt ->
  exists s, reachable dflt (init 2 true) s /\ running_git_ops s = 2.
Proof.
  intros Hd.
  set (i0 := mkInstance 1 0). set (fresh := mkInstance dflt 0).
  set (s1 := mkState [i0; fresh] [WaitPull 1; Start] true).
  set (s2 := mkState [i0; fresh; fresh] [WaitPull 1; WaitPull 2] true).
  set (s3 := mkState [i0; mkInstance dflt 1; fresh] [RunPull 1; WaitPull 2] true).
  set (s4 := mkState [i0; mkInstance dflt 1; mkInstance dflt 1] [RunPull 1; RunPull 2] true).
  assert (Hfree : (0 <? dflt) = true) by (apply Nat.ltb_lt; lia).
  exists s4. split; [|reflexivity].
  apply reach_step with s3; [apply reach_step with s2; [apply reach_step with s1|]|].
  - apply reach_step with (init 2 true); [apply reach_refl|].
    exact (step_start_pull dflt (init 2 true) 0 eq_refl eq_refl).
  - exact (step_start_pull dflt s1 1 eq_refl eq_refl).
  - exact (step_run_pull dflt s2 0 1 eq_refl Hfree).
  - exact (step_run_pull dflt s3 1 2 eq_refl Hfree).
Qed.

Lemma two_pulls_run_concurrently_witness :
  1 <= 5 /\ exists s, reachable 5 (init 2 true) s /\ running_git_ops s = 2.
Proof.
  assert (H : 1 <= 5) by lia.
  split; [exact H|exact (two_pulls_run_concurrently 5 H)].
Defined.

End SchedulerClaims.

(** * Further properties of the code *)

Module SearchExtraFacts.
Import Search SearchFacts DirFacts.

Lemma lower_char_nl (c : ascii) : Ascii.eqb (lower_char c) nl_char = Ascii.eqb c nl_char.
Proof.
  destruct c as [b0 b1 b2 b3 b4 b5 b6 b7].
  destruct b0, b1, b2, b3, b4, b5, b6, b7; reflexivity.
Qed.

Lemma lower_char_nl_inv (c : ascii) : lower_char c = nl_char -> c = nl_char.
Proof.
  intros H. apply Ascii.eqb_eq. rewrite <- lower_char_nl, H. apply Ascii.eqb_refl.
Qed.

Lemma split_nl_no_nl (s : str) : forall l, In l (split_nl s) -> ~ In nl_char l.
Proof.
  induction s as [|c s IH]; simpl.
  - intros l [<-|[]]. simpl. tauto.
  - destruct (ascii_dec c nl_char) as [_|Hc].
    + intros l [<-|Hl]; [simpl; tauto|exact (IH l Hl)].
    + destruct (split_nl s) as [|l0 ls] eqn:E.
      * intros l [<-|[]]. simpl. intros [H|[]]. congruence.
      * intros l [<-|Hl].
        -- intros [H|H]; [congruence|exact (IH l0 (or_introl eq_refl) H)].
        -- exact (IH l (or_intror Hl)).
Qed.

Lemma includes_in (s q : str) : includes s q = true -> forall x, In x q -> In x s.
Proof.
  induction s as [|c s IH]; intros H x Hx.
  - simpl in H. destruct q; [contradiction|discriminate].
  - cbn [includes] in H. apply orb_true_iff in H as [H|H].
    + apply startsWith_spec in H as [z Hz]. rewrite Hz. apply in_or_app. left. exact Hx.
    + right. exact (IH H x Hx).
Qed.

Lemma forEach_match_no_nl (lines : list str) (ql : str) :
  In nl_char ql ->
  forall rest i, (forall l, In l rest -> ~ In nl_char l) -> forEach_match lines ql i rest = [].
Proof.
  intros Hq rest. induction rest as [|l rest IH]; intros i Hr; [reflexivity|].
  simpl. rewrite IH by (intros l' Hl'; apply Hr; right; exact Hl').
  destruct (includes (toLowerCase l) ql) eqn:E; [|reflexivity].
  exfalso. apply (Hr l (or_introl eq_refl)).
  pose proof (includes_in _ _ E nl_char Hq) as Hin. unfold toLowerCase in Hin.
  apply in_map_iff in Hin as [c [Hc Hin]]. apply lower_char_nl_inv in Hc. subst c. exact Hin.
Qed.

Lemma forEach_match_length (lines : list str) (ql : str) :
  forall rest i, length (forEach_match lines ql i rest)
                 = length (filter (fun l => includes (toLowerCase l) ql) rest).
Proof.
  induction rest as [|l rest IH]; intros i; [reflexivity|].
  simpl. destruct (includes (toLowerCase l) ql); simpl; rewrite IH; reflexivity.
Qed.

End SearchExtraFacts.

Module SearchExtra.
Import Search SearchFacts SearchExtraFacts Server ServerFacts.

(** A query that contains a newline never matches: [search] finds nothing,
    whatever the document, since no line of [content.split('\n')] holds a
    newline. *)
Theorem search_newline_query (content query : str) :
  In nl_char query -> search content query = [].
Proof.
  intros Hq. unfold search. apply forEach_match_no_nl.
  - unfold toLowerCase. change nl_char with (lower_char nl_char). apply in_map. exact Hq.
  - apply split_nl_no_nl.
Qed.

Lemma search_newline_query_witness :
  In nl_char (lit "beta" ++ nl ++ lit "GAMMA")
  /\ search example_doc (lit "beta" ++ nl ++ lit "GAMMA") = [].
Proof.
  assert (H : In nl_char (lit "beta" ++ nl ++ lit "GAMMA")) by (simpl; tauto).
  split; [exact H|exact (search_newline_query example_doc _ H)].
Defined.

(** The text of [search_best_practices]: for a readable document, "No
    matches found ..." when no line contains the query (case-insensitive),
    and otherwise "Found N matches ..." with N the number of such lines,
    followed by the formatted matches. *)
Theorem search_best_practices_text (w : world) (p : platform) (c q : str) :
  doc_at (wc w) p = Ok c ->
  (length (filter (fun l => includes (toLowerCase l) (toLowerCase q)) (split_nl c)) = 0 ->
   value (search_best_practices p q w)
   = Ok (lit "No matches found for " ++ quote ++ q ++ quote ++ lit " in "
         ++ platform_str p ++ lit " AGENTS.md"))
  /\ (0 < length (filter (fun l => includes (toLowerCase l) (toLowerCase q)) (split_nl c)) ->
      value (search_best_practices p q w)
      = Ok (lit "Found "
            ++ nat_to_str (length (filter (fun l => includes (toLowerCase l) (toLowerCase q))
                                          (split_nl c)))
            ++ lit " matches for " ++ quote ++ q ++ quote ++ lit " in " ++ platform_str p
            ++ lit " AGENTS.md:" ++ nl ++ join nl (map format_match (search c q)))).
Proof.
  intros H.
  assert (Hl : length (map format_match (search c q))
               = length (filter (fun l => includes (toLowerCase l) (toLowerCase q)) (split_nl c)))
    by (rewrite length_map; unfold search; apply forEach_match_length).
  unfold search_best_practices, bind. rewrite (readAgentsMd_ok p w c H). cbn [value final].
  rewrite <- Hl.
  destruct (map format_match (search c q)) as [|m ms] eqn:E; cbn [length].
  - split; [reflexivity|intros Hn; inversion Hn].
  - split; [discriminate|reflexivity].
Qed.

Lemma search_best_practices_text_witness :
  doc_at (wc offline_world) BACKEND = Ok (lit "Use the auth middleware.")
  /\ value (search_best_practices BACKEND (lit "AUTH") offline_world)
     = Ok (lit "Found 1 matches for " ++ quote ++ lit "AUTH" ++ quote
           ++ lit " in backend AGENTS.md:" ++ nl
           ++ nl ++ lit "--- Line 1 ---" ++ nl ++ lit "Use the auth middleware." ++ nl)
  /\ value (search_best_practices BACKEND (lit "cache") offline_world)
     = Ok (lit "No matches found for " ++ quote ++ lit "cache" ++ quote
           ++ lit " in backend AGENTS.md").
Proof.
  assert (H : doc_at (wc offline_world) BACKEND = Ok (lit "Use the auth middleware."))
    by reflexivity.
  split; [exact H|split].
  - rewrite (proj2 (search_best_practices_text offline_world BACKEND _ (lit "AUTH") H))
      by (vm_compute; lia).
    vm_compute. reflexivity.
  - rewrite (proj1 (search_best_practices_text offline_world BACKEND _ (lit "cache") H))
      by (vm_compute; reflexivity).
    vm_compute. reflexivity.
Defined.

End SearchExtra.


Module DirExtraFacts.
Import DirTree DirFacts.

Lemma nodup_app {A} (l l' : list A) :
  NoDup l -> NoDup l' -> (forall a, In a l -> ~ In a l') -> NoDup (l ++ l').
Proof.
  induction l as [|x l IH]; intros Hl Hl' Hd; [exact Hl'|].
  inversion Hl as [|? ? Hx Hl0]; subst. simpl. constructor.
  - intros Hin. apply in_app_or in Hin as [H|H]; [contradiction|].
    exact (Hd x (or_introl eq_refl) H).
  - apply IH; [exact Hl0|exact Hl'|]. intros a Ha. apply Hd. right. exact Ha.
Qed.

Lemma names_eq (n m t t' : str) :
  name_ok n = true -> name_ok m = true ->
  (t = [] \/ exists z, t = slash_char :: z) -> (t' = [] \/ exists z, t' = slash_char :: z) ->
  n ++ t = m ++ t' -> n = m.
Proof.
  intros Hn Hm Ht Ht' He.
  apply name_ok_spec in Hn as [_ Hn]. apply name_ok_spec in Hm as [_ Hm].
  destruct Ht as [->|[z ->]].
  - rewrite app_nil_r in He. destruct Ht' as [->|[z' ->]].
    + rewrite app_nil_r in He. exact He.
    + exfalso. apply Hn. rewrite He. apply in_or_app. right. left. reflexivity.
  - exact (sep_names n m z t' Hn Hm He Ht').
Qed.

Lemma visit_form (e : entry) (p o : str) :
  wf_entry e = true -> In o (visit p e) ->
  exists t, o = join_prefix p ++ entry_name e ++ t /\ (t = [] \/ exists z, t = slash_char :: z).
Proof.
  intros He Ho.
  assert (Hw : wf_entries [e] = true)
    by (unfold wf_entries; simpl; rewrite He; reflexivity).
  assert (Ho' : In o (traverse p [e])) by (unfold traverse; simpl; rewrite app_nil_r; exact Ho).
  destruct (traverse_form [e] Hw p o Ho') as (n & t & [<-|[]] & _ & Hot & Ht).
  exists t. auto.
Qed.

Lemma traverse_nodup (es : list entry) :
  wf_entries es = true -> forall p, NoDup (traverse p es).
Proof.
  induction es as [|n rest IH|n cs rest IHcs IH] using entries_ind; intros Hwf p.
  - constructor.
  - destruct (wf_cons _ _ Hwf) as (He & Hr & Hn).
    rewrite traverse_cons. apply nodup_app; [|exact (IH Hr p)|].
    + rewrite visit_file. destruct (skipped n); repeat constructor; simpl; tauto.
    + intros a Ha Hb.
      destruct (visit_form _ p a He Ha) as (t & -> & Ht).
      destruct (traverse_form rest Hr p _ Hb) as (m & t' & Hm & Hmok & Hmo & Ht').
      apply app_inv_head in Hmo.
      apply Hn. replace (entry_name (File n)) with m; [exact Hm|].
      symmetry. exact (names_eq _ _ _ _ (wf_entry_name _ He) Hmok Ht Ht' Hmo).
  - destruct (wf_cons _ _ Hwf) as (He & Hr & Hn).
    rewrite traverse_cons. apply nodup_app; [|exact (IH Hr p)|].
    + rewrite visit_dir. destruct (skipped n); [constructor|].
      constructor; [|exact (IHcs (wf_entry_dir _ _ He) _)].
      intros Hin.
      destruct (traverse_form cs (wf_entry_dir _ _ He) _ _ Hin) as (m & t & _ & Hmok & Hmo & _).
      assert (Hpn : path_join p n <> []).
      { rewrite path_join_prefix. intros H. apply app_eq_nil in H as [_ H].
        apply wf_entry_name in He. apply name_ok_spec in He as [He _]. exact (He H). }
      rewrite (join_prefix_nonempty _ Hpn) in Hmo.
      apply (f_equal (@length ascii)) in Hmo. rewrite !length_app in Hmo.
      apply name_ok_spec in Hmok as [Hm _]. destruct m; [contradiction|simpl in Hmo; lia].
    + intros a Ha Hb.
      destruct (visit_form _ p a He Ha) as (t & -> & Ht).
      destruct (traverse_form rest Hr p _ Hb) as (m & t' & Hm & Hmok & Hmo & Ht').
      apply app_inv_head in Hmo.
      apply Hn. replace (entry_name (Dir n cs)) with m; [exact Hm|].
      symmetry. exact (names_eq _ _ _ _ (wf_entry_name _ He) Hmok Ht Ht' Hmo).
Qed.

End DirExtraFacts.

Module DirExtra.
Import DirTree DirFacts DirExtraFacts Server ServerFacts.

(** For a well-formed listing, [getDirectoryStructure] never lists a path
    twice. *)
Theorem getDirectoryStructure_nodup (w : world) (p : platform) (es : list entry) :
  tree_at (wc w) p = Ok es -> wf_entries es = true ->
  exists paths, value (getDirectoryStructure p w) = Ok paths /\ NoDup paths.
Proof.
  intros Ht Hwf. exists (structure_of es). split.
  - unfold getDirectoryStructure, fs_readdir, bind, emit, get, ret. simpl. rewrite Ht. reflexivity.
  - exact (traverse_nodup es Hwf []).
Qed.

Lemma getDirectoryStructure_nodup_witness :
  tree_at (wc offline_world) FRONTEND = Ok sample_tree /\ wf_entries sample_tree = true
  /\ exists paths, value (getDirectoryStructure FRONTEND offline_world) = Ok paths /\ NoDup paths.
Proof.
  assert (H1 : tree_at (wc offline_world) FRONTEND = Ok sample_tree) by reflexivity.
  assert (H2 : wf_entries sample_tree = true) by (vm_compute; reflexivity).
  split; [exact H1|split; [exact H2|exact (getDirectoryStructure_nodup _ _ _ H1 H2)]].
Defined.

End DirExtra.


Module ServerExtraFacts.
Import Server.

Lemma bind_ok_eq {A B} (m : M A) (k : A -> M B) (w : world) (a : A) :
  value (m w) = Ok a ->
  bind m k w = Out (events (m w) ++ events (k a (final (m w))))
                   (final (k a (final (m w)))) (value (k a (final (m w)))).
Proof. intros H. unfold bind. rewrite H. reflexivity. Qed.

Lemma bind_err_eq {A B} (m : M A) (k : A -> M B) (w : world) (e : error) :
  value (m w) = Err e -> bind m k w = Out (events (m w)) (final (m w)) (Err e).
Proof. intros H. unfold bind. rewrite H. reflexivity. Qed.

Lemma catch_ok_eq {A} (m : M A) (h : error -> M A) (w : world) (a : A) :
  value (m w) = Ok a -> catch m h w = m w.
Proof. intros H. unfold catch. rewrite H. reflexivity. Qed.

Lemma catch_err_eq {A} (m : M A) (h : error -> M A) (w : world) (e : error) :
  value (m w) = Err e ->
  catch m h w = Out (events (m w) ++ events (h e (final (m w))))
                    (final (h e (final (m w)))) (value (h e (final (m w)))).
Proof. intros H. unfold catch. rewrite H. reflexivity. Qed.

Lemma ret_eq {A} (a : A) (w : world) : ret a w = Out [] w (Ok a).
Proof. reflexivity. Qed.

Lemma outcome_eta {A} (o : outcome A) : o = Out (events o) (final o) (value o).
Proof. destruct o; reflexivity. Qed.

Lemma repoTools_init_eq (w : world) :
  (value (ensureRepo w) = Ok tt -> repoTools_init w = ensureRepo w)
  /\ (forall e, value (ensureRepo w) = Err e ->
      repoTools_init w
      = Out (events (ensureRepo w)
             ++ [Log Error_ (lit "Failed to initialize repository: " ++ error_to_string e)])
            (final (ensureRepo w)) (Err (ProcessExit 1))).
Proof.
  unfold repoTools_init, catch. split.
  - intros H. rewrite H. reflexivity.
  - intros e H. rewrite H. reflexivity.
Qed.

End ServerExtraFacts.

Module ServerExtra.
Import Server ServerFacts ServerExtraFacts Startup.

(** With a working copy, a successful pull replaces it by the pulled copy
    (no clone is run), and a resource read then serves the pulled
    document. *)
Theorem ensureRepo_pull_success (w : world) (c : wcopy) :
  dir_exists w = true -> pull_outcome w = Ok c ->
  ensureRepo w
  = Out [EnsureRepo; Access; Log Info (lit "Pulling repository..."); GitPull]
        (mkWorld true c (clone_outcome w) (pull_outcome w)) (Ok tt)
  /\ (forall p s, doc_at c p = Ok s -> value (resource_read p w) = Ok s).
Proof.
  intros Hd Hp.
  assert (He : ensureRepo w
               = Out [EnsureRepo; Access; Log Info (lit "Pulling repository..."); GitPull]
                     (mkWorld true c (clone_outcome w) (pull_outcome w)) (Ok tt)).
  { destruct w as [de c0 co po]. simpl in Hd, Hp. subst de po. reflexivity. }
  split; [exact He|].
  intros p s Hs. unfold resource_read, bind at 1. rewrite He. cbn [value final].
  unfold bind. rewrite (readAgentsMd_ok p (mkWorld true c (clone_outcome w) (pull_outcome w)) s Hs).
  reflexivity.
Qed.

Lemma ensureRepo_pull_success_witness :
  dir_exists (mkWorld true sample_wcopy (Ok full_wcopy) (Ok full_wcopy)) = true
  /\ pull_outcome (mkWorld true sample_wcopy (Ok full_wcopy) (Ok full_wcopy)) = Ok full_wcopy
  /\ value (resource_read MOBILE (mkWorld true sample_wcopy (Ok full_wcopy) (Ok full_wcopy)))
     = Ok (lit "Use the design system.").
Proof.
  assert (H1 : dir_exists (mkWorld true sample_wcopy (Ok full_wcopy) (Ok full_wcopy)) = true)
    by reflexivity.
  assert (H2 : pull_outcome (mkWorld true sample_wcopy (Ok full_wcopy) (Ok full_wcopy))
               = Ok full_wcopy) by reflexivity.
  split; [exact H1|split; [exact H2|]].
  apply (proj2 (ensureRepo_pull_success _ _ H1 H2)). reflexivity.
Defined.

(** Two calls in a row on a fresh directory: the first clones, the second
    finds the clone and pulls. *)
Theorem ensureRepo_twice_clone_then_pull (w : world) (c : wcopy) :
  dir_exists w = false -> clone_outcome w = Ok c ->
  events ((ensureRepo ;;; ensureRepo) w)
  = [EnsureRepo; Access;
     Log Warn (lit "Something went wrong accessing the repository directory");
     Log Info (lit "Cloning repository..."); GitClone;
     EnsureRepo; Access; Log Info (lit "Pulling repository..."); GitPull]
     ++ match pull_outcome w with
        | Ok _ => []
        | Err e => [Log Error_ (lit "Error managing repository: " ++ error_to_string e)]
        end.
Proof.
  intros Hd Hc. destruct w as [de c0 co po]. simpl in Hd, Hc. subst de co.
  destruct po; reflexivity.
Qed.

Lemma ensureRepo_twice_clone_then_pull_witness :
  dir_exists (mkWorld false full_wcopy (Ok sample_wcopy) (Ok full_wcopy)) = false
  /\ clone_outcome (mkWorld false full_wcopy (Ok sample_wcopy) (Ok full_wcopy)) = Ok sample_wcopy
  /\ events ((ensureRepo ;;; ensureRepo) (mkWorld false full_wcopy (Ok sample_wcopy) (Ok full_wcopy)))
     = [EnsureRepo; Access;
        Log Warn (lit "Something went wrong accessing the repository directory");
        Log Info (lit "Cloning repository..."); GitClone;
        EnsureRepo; Access; Log Info (lit "Pulling repository..."); GitPull].
Proof.
  assert (H1 : dir_exists (mkWorld false full_wcopy (Ok sample_wcopy) (Ok full_wcopy)) = false)
    by reflexivity.
  assert (H2 : clone_outcome (mkWorld false full_wcopy (Ok sample_wcopy) (Ok full_wcopy))
               = Ok sample_wcopy) by reflexivity.
  split; [exact H1|split; [exact H2|]].
  rewrite (ensureRepo_twice_clone_then_pull _ _ H1 H2). reflexivity.
Defined.

(** [startServer]: without a repository URL or directory it logs the
    problem and exits with code 1 before touching the repository; with
    both, it runs the start-up [ensureRepo], exits with code 1 when that
    fails (never reaching [app.listen]), and otherwise calls [app.listen]
    with the configured port. *)
Theorem startServer_result (v : env) (w : world) :
  (truthy (or_empty (REPO_URL v)) = false \/ truthy (or_empty (REPO_DIR v)) = false ->
   startServer v w
   = Out [Log Error_ (lit "Repository URL and directory must be specified in the configuration.")]
         w (Err (ProcessExit 1)))
  /\ (truthy (or_empty (REPO_URL v)) = true -> truthy (or_empty (REPO_DIR v)) = true ->
      (value (ensureRepo w) = Ok tt ->
       startServer v w = Out (events (ensureRepo w)) (final (ensureRepo w)) (Ok (config_port v)))
      /\ (forall e, value (ensureRepo w) = Err e ->
          startServer v w
          = Out (events (ensureRepo w)
                 ++ [Log Error_ (lit "Failed to initialize repository: " ++ error_to_string e)])
                (final (ensureRepo w)) (Err (ProcessExit 1)))).
Proof.
  split.
  - intros H. unfold startServer, config_of. cbn [repoUrl repoDir].
    assert (Hb : negb (truthy (or_empty (REPO_URL v))) || negb (truthy (or_empty (REPO_DIR v)))
                 = true) by (destruct H as [-> | ->]; [reflexivity|apply orb_true_r]).
    rewrite Hb. reflexivity.
  - intros Hu Hd. unfold startServer, config_of. cbn [repoUrl repoDir port].
    rewrite Hu, Hd. cbn [negb orb]. unfold start_catch.
    assert (Hpre : (ret tt ;;; (repoTools_init ;;; ret (config_port v))) w
                   = (repoTools_init ;;; ret (config_port v)) w).
    { rewrite (bind_ok_eq (ret tt) _ w tt eq_refl), ret_eq. cbn [events final value app].
      symmetry. apply outcome_eta. }
    split.
    + intros H.
      assert (Hi : value (repoTools_init w) = Ok tt)
        by (rewrite (proj1 (repoTools_init_eq w) H); exact H).
      assert (Ein : (ret tt ;;; (repoTools_init ;;; ret (config_port v))) w
                    = Out (events (ensureRepo w)) (final (ensureRepo w)) (Ok (config_port v))).
      { rewrite Hpre, (bind_ok_eq repoTools_init _ w tt Hi), ret_eq.
        cbn [events final value]. rewrite (proj1 (repoTools_init_eq w) H), app_nil_r.
        reflexivity. }
      rewrite (catch_ok_eq _ _ w (config_port v)) by (rewrite Ein; reflexivity).
      exact Ein.
    + intros e H.
      assert (Hi : repoTools_init w
                   = Out (events (ensureRepo w)
                          ++ [Log Error_ (lit "Failed to initialize repository: " ++ error_to_string e)])
                         (final (ensureRepo w)) (Err (ProcessExit 1)))
        by exact (proj2 (repoTools_init_eq w) e H).
      assert (Hv : value (repoTools_init w) = Err (ProcessExit 1)) by (rewrite Hi; reflexivity).
      assert (Ein : (ret tt ;;; (repoTools_init ;;; ret (config_port v))) w
                    = Out (events (repoTools_init w)) (final (repoTools_init w)) (Err (ProcessExit 1))).
      { rewrite Hpre, (bind_err_eq repoTools_init _ w _ Hv). reflexivity. }
      rewrite (catch_err_eq _ _ w (ProcessExit 1)) by (rewrite Ein; reflexivity).
      rewrite Ein, Hi. cbn [events final value]. unfold throw. cbn [events final value].
      rewrite app_nil_r. reflexivity.
Qed.

Lemma startServer_result_witness :
  truthy (or_empty (REPO_URL (mkEnv None (Some (lit "git@host:org/boilerplates.git")) None None)))
    = true
  /\ truthy (or_empty (REPO_DIR (mkEnv None (Some (lit "git@host:org/boilerplates.git")) None None)))
    = false
  /\ startServer (mkEnv None (Some (lit "git@host:org/boilerplates.git")) None None) online_world
     = Out [Log Error_ (lit "Repository URL and directory must be specified in the configuration.")]
           online_world (Err (ProcessExit 1)).
Proof.
  assert (H : truthy (or_empty (REPO_DIR (mkEnv None (Some (lit "git@host:org/boilerplates.git")) None None)))
              = false) by reflexivity.
  split; [reflexivity|split; [exact H|]].
  apply (proj1 (startServer_result _ online_world)). right. exact H.
Defined.

(** When some platform's document cannot be read, [get_all_contexts]
    rejects with the [readAgentsMd] error of such a platform. *)
Theorem get_all_contexts_missing (w : world) :
  (exists p e, doc_at (wc w) p = Err e) ->
  exists p e, doc_at (wc w) p = Err e
              /\ value (get_all_contexts w)
                 = Err (JsError (lit "Failed to read AGENTS.md for " ++ platform_str p
                                 ++ lit ": " ++ error_to_string e)).
Proof.
  intros Hex.
  assert (Hsec : forall p, bind (readAgentsMd p) (fun content => ret (context_section p content)) w
                 = Out [ReadFile p] w
                       (match doc_at (wc w) p with
                        | Ok c => Ok (context_section p c)
                        | Err e => Err (JsError (lit "Failed to read AGENTS.md for " ++ platform_str p
                                                 ++ lit ": " ++ error_to_string e))
                        end)).
  { intros p. unfold bind at 1. destruct (doc_at (wc w) p) as [c|e] eqn:E.
    - rewrite (readAgentsMd_ok p w c E). reflexivity.
    - rewrite (readAgentsMd_err p w e E). reflexivity. }
  unfold get_all_contexts. rewrite map_config_platforms.
  unfold bind at 1. rewrite !promise_all_cons, !Hsec. cbn [final value events].
  destruct (doc_at (wc w) BACKEND) as [cb|eb] eqn:Eb.
  - destruct (doc_at (wc w) FRONTEND) as [cf|ef] eqn:Ef.
    + destruct (doc_at (wc w) MOBILE) as [cm|em] eqn:Em.
      * exfalso. destruct Hex as [[| |] [e He]]; congruence.
      * exists MOBILE, em. split; [exact Em|reflexivity].
    + exists FRONTEND, ef. split; [exact Ef|].
      destruct (doc_at (wc w) MOBILE); reflexivity.
  - exists BACKEND, eb. split; [exact Eb|].
    destruct (doc_at (wc w) FRONTEND), (doc_at (wc w) MOBILE); reflexivity.
Qed.

Lemma get_all_contexts_missing_witness :
  (exists p e, doc_at (wc offline_world) p = Err e)
  /\ exists p e, doc_at (wc offline_world) p = Err e
                 /\ value (get_all_contexts offline_world)
                    = Err (JsError (lit "Failed to read AGENTS.md for " ++ platform_str p
                                    ++ lit ": " ++ error_to_string e)).
Proof.
  assert (H : exists p e, doc_at (wc offline_world) p = Err e)
    by (exists MOBILE, (IoError (lit "ENOENT: no such file or directory")); reflexivity).
  split; [exact H|exact (get_all_contexts_missing offline_world H)].
Defined.

End ServerExtra.


Module StartupFacts.
Import Server Startup.

Lemma digit_value_dchar (d : nat) : d < 10 -> digit_value (dchar d) = Some (Z.of_nat d).
Proof.
  intros Hd. unfold digit_value, dchar.
  rewrite nat_ascii_embedding by lia.
  replace ((48 <=? 48 + d) && (48 + d <=? 57)) with true
    by (symmetry; apply andb_true_iff; split; apply Nat.leb_le; lia).
  f_equal. f_equal. lia.
Qed.

Lemma take_digits_dchars (ds : list nat) (rest : str) :
  Forall (fun d => d < 10) ds ->
  take_digits 10 (map dchar ds ++ rest) = map Z.of_nat ds ++ take_digits 10 rest.
Proof.
  induction ds as [|d ds IH]; intros H; [reflexivity|].
  inversion H as [|? ? Hd Hds]; subst. cbn [map app take_digits].
  rewrite (digit_value_dchar d Hd).
  replace (Z.of_nat d <? 10)%Z with true by (symmetry; apply Z.ltb_lt; lia).
  rewrite IH by exact Hds. reflexivity.
Qed.

Lemma digits_value_snoc (r : Z) (ds : list Z) (d : Z) :
  digits_value r (ds ++ [d]) = (digits_value r ds * r + d)%Z.
Proof. unfold digits_value. rewrite fold_left_app. reflexivity. Qed.

Lemma nat_to_str_aux_digits (fuel : nat) :
  forall n acc, n < fuel ->
  exists ds, nat_to_str_aux fuel n acc = map dchar ds ++ acc
             /\ Forall (fun d => d < 10) ds
             /\ digits_value 10 (map Z.of_nat ds) = Z.of_nat n
             /\ (n = 0 \/ exists d ds', ds = d :: ds' /\ 0 < d).
Proof.
  induction fuel as [|f IH]; intros n acc Hn; [lia|].
  cbn [nat_to_str_aux]. destruct (n <? 10) eqn:E.
  - apply Nat.ltb_lt in E. exists [n]. rewrite Nat.mod_small by exact E.
    split; [reflexivity|split; [constructor; [exact E|constructor]|split]].
    + reflexivity.
    + destruct n; [left; reflexivity|right; exists (S n), []; split; [reflexivity|lia]].
  - apply Nat.ltb_ge in E.
    destruct (IH (n / 10) (ascii_of_nat (48 + n mod 10) :: acc)) as (ds & Hs & Hf & Hv & Hl).
    { assert (n / 10 < n) by (apply Nat.div_lt; lia). lia. }
    exists (ds ++ [n mod 10]). split; [|split; [|split]].
    + rewrite Hs, map_app, <- app_assoc. reflexivity.
    + apply Forall_app. split; [exact Hf|]. constructor; [apply Nat.mod_upper_bound; lia|constructor].
    + rewrite map_app. cbn [map]. rewrite digits_value_snoc, Hv.
      pose proof (Nat.div_mod_eq n 10). lia.
    + right. destruct Hl as [Hz|(d & ds' & -> & Hd)].
      * exfalso. assert (10 <= n) by exact E.
        assert (1 <= n / 10) by (apply (Nat.div_le_lower_bound n 10 1); lia). lia.
      * exists d, (ds' ++ [n mod 10]). split; [reflexivity|exact Hd].
Qed.

Lemma trim_start_ws (ws s : str) :
  Forall (fun c => is_ws c = true) ws -> trim_start (ws ++ s) = trim_start s.
Proof.
  induction ws as [|c ws IH]; intros H; [reflexivity|].
  inversion H as [|? ? Hc Hws]; subst. cbn [app trim_start]. rewrite Hc. exact (IH Hws).
Qed.

Lemma parseInt_decimal (ws rest : str) (n : nat) :
  Forall (fun c => is_ws c = true) ws -> 0 < n -> take_digits 10 rest = [] ->
  parseInt (ws ++ nat_to_str n ++ rest) = Some (Z.of_nat n).
Proof.
  intros Hws Hn Hr. unfold parseInt. rewrite trim_start_ws by exact Hws.
  destruct (nat_to_str_aux_digits (S n) n [] ltac:(lia)) as (ds & Hs & Hf & Hv & Hl).
  unfold nat_to_str. rewrite Hs, app_nil_r.
  destruct Hl as [Hz|(d & ds' & -> & Hd)]; [lia|].
  inversion Hf as [|? ? Hd10 Hf']; subst.
  assert (Hnot : forall x, x = 45 \/ x = 43 \/ x = 48 \/ (9 <= x <= 13) \/ x = 32 ->
                 nat_of_ascii (dchar d) <> x).
  { intros x Hx. unfold dchar. rewrite nat_ascii_embedding by lia. lia. }
  cbn [map app trim_start].
  assert (Hw : is_ws (dchar d) = false).
  { unfold is_ws. apply orb_false_iff. split.
    - apply andb_false_iff. destruct (Nat.le_gt_cases 9 (nat_of_ascii (dchar d))).
      + right. apply Nat.leb_gt. unfold dchar in *. rewrite nat_ascii_embedding in * by lia. lia.
      + left. apply Nat.leb_gt. lia.
    - apply Nat.eqb_neq. apply Hnot. auto. }
  rewrite Hw.
  destruct (ascii_dec (dchar d) "-"%char) as [E|_].
  { exfalso. apply (Hnot 45); [auto|rewrite E; reflexivity]. }
  destruct (ascii_dec (dchar d) "+"%char) as [E|_].
  { exfalso. apply (Hnot 43); [auto|rewrite E; reflexivity]. }
  assert (H0 : (if ascii_dec (dchar d) "0"%char then true else false) = false).
  { destruct (ascii_dec (dchar d) "0"%char) as [E|_]; [|reflexivity].
    exfalso. apply (Hnot 48); [auto|rewrite E; reflexivity]. }
  assert (Hpre : forall t : str,
    (let '(r, s3) := match dchar d :: t with
                     | c :: x :: t' =>
                         if (if ascii_dec c "0"%char then true else false)
                            && (if ascii_dec x "x"%char then true
                                else if ascii_dec x "X"%char then true else false)
                         then (16%Z, t') else (10%Z, dchar d :: t)
                     | _ => (10%Z, dchar d :: t)
                     end in
     match take_digits r s3 with
     | [] => None
     | ds0 => Some (1 * digits_value r ds0)%Z
     end)
    = match take_digits 10 (dchar d :: t) with
      | [] => None
      | ds0 => Some (1 * digits_value 10 ds0)%Z
      end).
  { intros [|x t]; [reflexivity|]. rewrite H0. reflexivity. }
  rewrite Hpre.
  change (dchar d :: map dchar ds' ++ rest) with (map dchar (d :: ds') ++ rest).
  rewrite take_digits_dchars by exact Hf. rewrite Hr, app_nil_r.
  cbn [map] in Hv |- *. rewrite Hv, Z.mul_1_l. reflexivity.
Qed.

End StartupFacts.

Module StartupExtra.
Import Server Startup StartupFacts.

(** The configured port: 3000 when [PORT] is unset or empty; when [PORT]
    is a positive decimal number (below 2^53), possibly after leading
    white space and followed by anything that does not start with a digit,
    that number. *)
Theorem config_port_spec (v : env) :
  (PORT v = None \/ PORT v = Some [] -> config_port v = Some 3000%Z)
  /\ (forall ws n rest,
        Forall (fun c => is_ws c = true) ws -> 0 < n -> (Z.of_nat n < 2 ^ 53)%Z ->
        take_digits 10 rest = [] ->
        PORT v = Some (ws ++ nat_to_str n ++ rest) -> config_port v = Some (Z.of_nat n)).
Proof.
  unfold config_port. split.
  - intros [-> | ->]; reflexivity.
  - intros ws n rest Hws Hn _ Hr ->.
    assert (Ht : truthy (ws ++ nat_to_str n ++ rest) = true).
    { destruct ws; [|reflexivity].
      unfold nat_to_str. destruct (nat_to_str_aux_digits (S n) n [] ltac:(lia)) as (ds & Hs & _ & _ & Hl).
      rewrite Hs. destruct Hl as [Hz|(d & ds' & -> & _)]; [lia|reflexivity]. }
    rewrite Ht. apply parseInt_decimal; assumption.
Qed.

Lemma config_port_spec_witness :
  config_port (mkEnv None None None None) = Some 3000%Z
  /\ config_port (mkEnv (Some (lit " 3030;")) None None None) = Some 3030%Z.
Proof.
  split.
  - apply (proj1 (config_port_spec (mkEnv None None None None))). left. reflexivity.
  - apply (proj2 (config_port_spec (mkEnv (Some (lit " 3030;")) None None None))
             (lit " ") 3030 (lit ";")).
    + constructor; [reflexivity|constructor].
    + lia.
    + vm_compute. reflexivity.
    + reflexivity.
    + vm_compute. reflexivity.
Defined.

End StartupExtra.

Module RegistryExtra.
Import DirFacts Server Registry.

(** The [platform] argument of the tools accepts exactly the three
    lower-case platform names, and so rejects their upper-case forms. *)
Theorem parse_platform_spec :
  (forall s p, parse_platform s = Some p <-> s = platform_str p)
  /\ (forall p, parse_platform (toUpperCase (platform_str p)) = None).
Proof.
  split.
  - intros s p. split.
    + unfold parse_platform. cbn [find config_platforms].
      destruct (str_eqb (platform_str BACKEND) s) eqn:E1;
        [intros H; injection H as <-; apply str_eqb_spec in E1; congruence|].
      destruct (str_eqb (platform_str FRONTEND) s) eqn:E2;
        [intros H; injection H as <-; apply str_eqb_spec in E2; congruence|].
      destruct (str_eqb (platform_str MOBILE) s) eqn:E3;
        [intros H; injection H as <-; apply str_eqb_spec in E3; congruence|].
      discriminate.
    + intros ->. destruct p; reflexivity.
  - intros []; reflexivity.
Qed.

Lemma parse_platform_spec_witness :
  parse_platform (lit "mobile") = Some MOBILE /\ parse_platform (lit "Mobile") = None.
Proof.
  split.
  - apply (proj1 parse_platform_spec). reflexivity.
  - destruct (parse_platform (lit "Mobile")) as [p|] eqn:E; [|reflexivity].
    apply (proj1 parse_platform_spec) in E. destruct p; discriminate.
Defined.

End RegistryExtra.


Module SchedulerExtraFacts.
Import GitScheduler.

Lemma nth_error_set_nth_eq {A} (l : list A) (i : nat) (x : A) :
  i < length l -> nth_error (set_nth l i x) i = Some x.
Proof.
  revert i; induction l as [|y l IH]; intros [|i] Hi; simpl in *; try lia; [reflexivity|].
  apply IH. lia.
Qed.

Lemma nth_error_set_nth_neq {A} (l : list A) (i j : nat) (x : A) :
  i <> j -> nth_error (set_nth l i x) j = nth_error l j.
Proof.
  revert i j; induction l as [|y l IH]; intros [|i] [|j] Hij; simpl; try reflexivity; try lia.
  apply IH. lia.
Qed.

Lemma nth_error_set_nth_out {A} (l : list A) (i j : nat) (x : A) :
  nth_error (set_nth l i x) j = if Nat.eqb i j then
                                  match nth_error l j with Some _ => Some x | None => None end
                                else nth_error l j.
Proof.
  destruct (Nat.eqb_spec i j) as [<-|Hij]; [|apply nth_error_set_nth_neq; exact Hij].
  destruct (nth_error l i) eqn:E.
  - apply nth_error_set_nth_eq. apply nth_error_Some. congruence.
  - revert i E; induction l as [|y l IH]; intros [|i] E; simpl in *; try discriminate; auto.
Qed.

Lemma count_set_nth {A} (f : A -> bool) (l : list A) (t : nat) (x y : A) :
  nth_error l t = Some y ->
  length (filter f (set_nth l t x)) + (if f y then 1 else 0)
  = length (filter f l) + (if f x then 1 else 0).
Proof.
  revert t; induction l as [|z l IH]; intros [|t] H; simpl in *; try discriminate.
  - injection H as ->. destruct (f x), (f y); simpl; lia.
  - specialize (IH t H). destruct (f z); simpl; lia.
Qed.

Lemma running_clones_set (s : state) (t : nat) (y x : pc) (ins : list instance) (b : bool) :
  nth_error (threads s) t = Some y ->
  running_clones (mkState ins (set_nth (threads s) t x) b) + (if is_clone y then 1 else 0)
  = running_clones s + (if is_clone x then 1 else 0).
Proof. intros H. unfold running_clones. exact (count_set_nth is_clone _ t x y H). Qed.

Lemma pulls_set (s : state) (t : nat) (x : pc) :
  (forall t i, nth_error (threads s) t = Some (WaitPull i)
               \/ nth_error (threads s) t = Some (RunPull i) -> 1 <= i) ->
  (forall i, x = WaitPull i \/ x = RunPull i -> 1 <= i) ->
  forall t' i, nth_error (set_nth (threads s) t x) t' = Some (WaitPull i)
               \/ nth_error (set_nth (threads s) t x) t' = Some (RunPull i) -> 1 <= i.
Proof.
  intros Hs Hx t' i. rewrite nth_error_set_nth_out.
  destruct (Nat.eqb t t'); [|apply Hs].
  destruct (nth_error (threads s) t'); [|intros [H|H]; discriminate].
  intros [H|H]; injection H as ->; apply Hx; auto.
Qed.

Lemma acquire_other (s : state) (i : nat) : i <> 0 -> nth_error (acquire s i) 0 = nth_error (instances s) 0.
Proof.
  intros Hi. unfold acquire. destruct (nth_error (instances s) i); [|reflexivity].
  apply nth_error_set_nth_neq. exact Hi.
Qed.

Lemma release_other (s : state) (i : nat) : i <> 0 -> nth_error (release s i) 0 = nth_error (instances s) 0.
Proof.
  intros Hi. unfold release. destruct (nth_error (instances s) i); [|reflexivity].
  apply nth_error_set_nth_neq. exact Hi.
Qed.

Lemma inv_step (dflt : nat) (s s' : state) : clones_inv s -> step dflt s s' -> clones_inv s'.
Proof.
  intros (H0 & H1 & H2) Hst.
  destruct Hst as [s t Ht Hp|s t Ht Hp|s t Ht Hf|s t i Ht Hf|s t Ht|s t i Ht].
  - pose proof (running_clones_set s t Start WaitClone (instances s) (repo_present s) Ht) as Hc.
    simpl in Hc. rewrite !Nat.add_0_r in Hc.
    split; [|split]; cbn [instances threads repo_present]; [rewrite Hc; exact H0|lia|].
    apply pulls_set; [exact H2|intros i [H|H]; discriminate].
  - pose proof (running_clones_set s t Start (WaitPull (length (instances s)))
                  (instances s ++ [mkInstance dflt 0]) (repo_present s) Ht) as Hc.
    simpl in Hc. rewrite !Nat.add_0_r in Hc.
    assert (Hl : 0 < length (instances s)) by (apply nth_error_Some; congruence).
    split; [|split]; cbn [instances threads repo_present].
    + rewrite nth_error_app1 by exact Hl. rewrite Hc. exact H0.
    + lia.
    + apply pulls_set; [exact H2|]. intros i [H|H]; [injection H as <-; lia|discriminate].
  - pose proof (running_clones_set s t WaitClone RunClone (acquire s 0) (repo_present s) Ht) as Hc.
    simpl in Hc. unfold free_slot in Hf. rewrite H0 in Hf. simpl in Hf.
    apply Nat.ltb_lt in Hf.
    split; [|split]; cbn [instances threads repo_present].
    + assert (Hn : running_clones (mkState (acquire s 0) (set_nth (threads s) t RunClone) (repo_present s))
                   = S (running_clones s)) by lia.
      rewrite Hn. unfold acquire. rewrite H0.
      rewrite nth_error_set_nth_eq by (apply nth_error_Some; congruence). reflexivity.
    + lia.
    + apply pulls_set; [exact H2|intros i [H|H]; discriminate].
  - assert (Hi : 1 <= i) by (apply (H2 t); left; exact Ht).
    pose proof (running_clones_set s t (WaitPull i) (RunPull i) (acquire s i) (repo_present s) Ht) as Hc.
    simpl in Hc. rewrite !Nat.add_0_r in Hc.
    split; [|split]; cbn [instances threads repo_present].
    + rewrite acquire_other by lia. rewrite Hc. exact H0.
    + lia.
    + apply pulls_set; [exact H2|]. intros i' [H|H]; [discriminate|injection H as <-; exact Hi].
  - pose proof (running_clones_set s t RunClone Done (release s 0) true Ht) as Hc.
    simpl in Hc.
    split; [|split]; cbn [instances threads repo_present].
    + assert (Hn : running_clones (mkState (release s 0) (set_nth (threads s) t Done) true)
                   = running_clones s - 1) by lia.
      rewrite Hn. unfold release. rewrite H0.
      rewrite nth_error_set_nth_eq by (apply nth_error_Some; congruence). reflexivity.
    + lia.
    + apply pulls_set; [exact H2|intros i [H|H]; discriminate].
  - assert (Hi : 1 <= i) by (apply (H2 t); right; exact Ht).
    pose proof (running_clones_set s t (RunPull i) Done (release s i) (repo_present s) Ht) as Hc.
    simpl in Hc. rewrite !Nat.add_0_r in Hc.
    split; [|split]; cbn [instances threads repo_present].
    + rewrite release_other by lia. rewrite Hc. exact H0.
    + lia.
    + apply pulls_set; [exact H2|intros i' [H|H]; discriminate].
Qed.

Lemma nth_error_repeat_some {A} (x y : A) (n t : nat) : nth_error (repeat x n) t = Some y -> y = x.
Proof.
  revert t; induction n as [|n IH]; intros [|t] H; simpl in H; try discriminate.
  - congruence.
  - exact (IH t H).
Qed.

Lemma inv_init (n : nat) (present : bool) : clones_inv (init n present).
Proof.
  assert (Hc : running_clones (init n present) = 0).
  { unfold running_clones, init. simpl. induction n as [|n IH]; [reflexivity|exact IH]. }
  split; [|split]; [rewrite Hc; reflexivity|lia|].
  intros t i [H|H]; apply nth_error_repeat_some in H; discriminate.
Qed.

Lemma inv_reachable (dflt n : nat) (present : bool) (s : state) :
  reachable dflt (init n present) s -> clones_inv s.
Proof.
  induction 1 as [|s s' _ IH Hst]; [apply inv_init|exact (inv_step dflt s s' IH Hst)].
Qed.

End SchedulerExtraFacts.

Module SchedulerExtra.
Import GitScheduler SchedulerExtraFacts.

(** Clones, which all go through the shared [git] instance with
    [maxConcurrentProcesses: 1], never run two at a time, however many
    [ensureRepo] calls run concurrently. *)
Theorem clones_never_overlap (dflt n : nat) (present : bool) (s : state) :
  reachable dflt (init n present) s -> running_clones s <= 1.
Proof. intros H. exact (proj1 (proj2 (inv_reachable dflt n present s H))). Qed.

Lemma clones_never_overlap_witness :
  reachable 5 (init 2 false)
            (mkState [mkInstance 1 1] [RunClone; WaitClone] false)
  /\ running_clones (mkState [mkInstance 1 1] [RunClone; WaitClone] false) <= 1.
Proof.
  assert (H : reachable 5 (init 2 false) (mkState [mkInstance 1 1] [RunClone; WaitClone] false)).
  { apply reach_step with (mkState [mkInstance 1 0] [WaitClone; WaitClone] false).
    - apply reach_step with (mkState [mkInstance 1 0] [WaitClone; Start] false).
      + apply reach_step with (init 2 false); [apply reach_refl|].
        exact (step_start_clone 5 (init 2 false) 0 eq_refl eq_refl).
      + exact (step_start_clone 5 (mkState [mkInstance 1 0] [WaitClone; Start] false) 1 eq_refl eq_refl).
    - exact (step_run_clone 5 (mkState [mkInstance 1 0] [WaitClone; WaitClone] false) 0 eq_refl eq_refl). }
  split; [exact H|exact (clones_never_overlap 5 2 false _ H)].
Defined.

End SchedulerExtra.
